(** * Players and games: the membership-mutation core of [callback/fastapi.py]

    A shallow embedding of the three mutating endpoints of the service
    ([/new_player], [/new_game], [/add_player_to_game]), of the pydantic
    schemas that validate their bodies, and of the Django tables of
    [callback/models.py] they read and write.

    Layout:
    - Python strings;
    - the relational store ([Player], [Game], the many-to-many table);
    - request bodies, errors, credentials, responses;
    - the regular expression of [validate_email];
    - the validators of the pydantic schemas;
    - the endpoints, the request dispatch, sequences of requests;
    - the request as served: the header, the keys out of range;
    - overlapping requests (validation and endpoint as separate steps);
    - the properties, then examples and the properties at concrete inputs.

    Conventions.  A request body is taken with fields of the declared
    types ([str], [int]); timestamps are integers read from a clock that
    the caller of the model supplies; a response is kept as its status and
    payload.  The database enforces what [models.py] declares: primary
    keys and the [unique=True] columns do not repeat, and a membership row
    refers to rows that exist.  [handle] is a request whose header has
    parsed and whose keys the key columns can hold; [respond] is the whole
    request, with the header that does not parse and the key that is out
    of range. *)

From Stdlib Require Import ZArith NArith List Bool String Ascii Lia.
Import ListNotations.

Local Open Scope Z_scope.

(* ===================================================================== *)
(** ** Python strings *)
(* ===================================================================== *)

(** A Python [str] is a sequence of Unicode code points. *)
Definition pystr := list N.

(** ASCII literals, for examples. *)
Definition str (s : string) : pystr := map N_of_ascii (list_ascii_of_string s).

Fixpoint eqb_str (a b : pystr) : bool :=
  match a, b with
  | [], [] => true
  | x :: a', y :: b' => N.eqb x y && eqb_str a' b'
  | _, _ => false
  end.

(** [len(v)] *)
Definition len (v : pystr) : Z := Z.of_nat (List.length v).

(** [c in s], [set(a).issubset(set(b))] *)
Definition mem_char (c : N) (s : pystr) : bool := existsb (N.eqb c) s.
Definition issubset (a b : pystr) : bool := forallb (fun c => mem_char c b) a.

(** A table of the alphanumeric characters beyond ASCII that has none of
    them: enough for the examples, whose strings are ASCII. *)
Definition ascii_only : N -> bool := fun _ => false.

(* ===================================================================== *)
(** ** The store: the tables of [callback/models.py] *)
(* ===================================================================== *)

Module Player.
Record t := mk {
  pk : Z;
  name : pystr;          (* CharField(max_length=54, unique=True) *)
  email : pystr;         (* EmailField(max_length=54, unique=True) *)
  created_at : Z;        (* DateTimeField(auto_now_add=True) *)
  updated_at : Z         (* DateTimeField(auto_now=True) *)
}.
End Player.

Module Game.
Record t := mk {
  pk : Z;
  name : pystr;          (* CharField(max_length=254, default="") *)
  created_at : Z;
  updated_at : Z
}.
End Game.

(** The database. [game_players] is the table behind
    [Game.players = ManyToManyField(Player)]: one row [(game, player)] per
    membership.  The two sequences hand out the primary keys. *)
Record store := mkStore {
  players : list Player.t;
  games : list Game.t;
  game_players : list (Z * Z);
  player_seq : Z;
  game_seq : Z
}.

Definition empty_store : store := mkStore [] [] [] 1 1.

(** Exceptions of the database layer that no code of the service catches. *)
Inductive db_error :=
| IntegrityError           (* a [unique=True] column would repeat *)
| DoesNotExist.            (* [objects.get] found no row *)

(** [Model.objects.get(...)]: [None] stands for [DoesNotExist].  The
    columns queried ([pk], [name], [email]) are unique in the database, so
    at most one row matches.  The two lookups by key are the query for a
    key the column can hold (64 bits, [key_range] below): for an integer
    beyond it the database driver raises [OverflowError] before any query
    is made, which [validate] accounts for. *)
Definition Player_get_name (st : store) (name : pystr) : option Player.t :=
  find (fun p => eqb_str (Player.name p) name) (players st).

Definition Player_get_email (st : store) (email : pystr) : option Player.t :=
  find (fun p => eqb_str (Player.email p) email) (players st).

Definition Player_get_pk (st : store) (pk : Z) : option Player.t :=
  find (fun p => Player.pk p =? pk) (players st).

Definition Game_get_pk (st : store) (pk : Z) : option Game.t :=
  find (fun g => Game.pk g =? pk) (games st).

(** [game.players.values_list('pk', flat=True)]: the players of the
    membership rows of the game, in insertion order. *)
Definition players_pks (st : store) (game : Z) : list Z :=
  map snd (filter (fun row => fst row =? game) (game_players st)).

(** [game.players.count()] *)
Definition players_count (st : store) (game : Z) : Z :=
  Z.of_nat (List.length (players_pks st game)).

(** [Player(name=..., email=...).save()]: an INSERT.  The row gets the next
    key of the sequence and both timestamps are set from the clock; the
    unique columns refuse a repeated name or email. *)
Definition Player_save (st : store) (name email : pystr) (now : Z)
  : db_error + (Player.t * store) :=
  match Player_get_name st name, Player_get_email st email with
  | None, None =>
      let row := Player.mk (player_seq st) name email now now in
      inr (row, mkStore (players st ++ [row]) (games st) (game_players st)
                        (player_seq st + 1) (game_seq st))
  | _, _ => inl IntegrityError
  end.

(** [g = Game(); g.name = ...; g.save()], for a name the database can
    store (text it can encode, within the column).  The endpoint does not
    check the name, so what happens for another one is the driver's
    doing and is not described here. *)
Definition Game_save (st : store) (name : pystr) (now : Z) : Game.t * store :=
  let row := Game.mk (game_seq st) name now now in
  (row, mkStore (players st) (games st ++ [row]) (game_players st)
                (player_seq st) (game_seq st + 1)).

(** [game.players.add(player_id)]: inserts the membership row unless it is
    there already.  The [Game] row itself is not saved. *)
Definition players_add (st : store) (game player_id : Z) : store :=
  if existsb (Z.eqb player_id) (players_pks st game) then st
  else mkStore (players st) (games st) (game_players st ++ [(game, player_id)])
               (player_seq st) (game_seq st).


(* ===================================================================== *)
(** ** Request bodies (the pydantic schemas, once validated) *)
(* ===================================================================== *)

Module CreatePlayerItem.
Record t := mk { name : pystr; email : pystr }.
End CreatePlayerItem.

Module GameItem.
Record t := mk { name : pystr }.
End GameItem.

Module AddingPlayerInGame.
Record t := mk { game_id : Z; player_id : Z }.
End AddingPlayerInGame.

(** What a validator can raise.  The first is pydantic's own error for
    [Field(..., max_length=54)]; the others are the [ValueError]s of the
    validators, named as the interface names them. *)
Inductive reason :=
| MaxLengthExceeded
| InvalidNameCharset
| DuplicateName
| InvalidEmailFormat
| DuplicateEmail
| PlayerNotFound
| GameNotFound
| GameFull
| AlreadyMember.

(** The text of each error, as the 400 response carries it. *)
Definition msg (r : reason) : string :=
  match r with
  | MaxLengthExceeded => "ensure this value has at most 54 characters"
  | InvalidNameCharset =>
      "Invalid characters in name. Only digits 0-9 and letters a-f are allowed."
  | DuplicateName => "Player item with this name already exists"
  | InvalidEmailFormat => "Email is not valid"
  | DuplicateEmail => "Player item with this email already exists"
  | PlayerNotFound => "Player does not exists"
  | GameNotFound => "Game does not exists"
  | GameFull => "Game has not more than 5 players"
  | AlreadyMember => "Player already in this game"
  end%string.

(** Outcome of one validator. *)
Inductive result (A : Type) :=
| Return (a : A)
| ValueError (r : reason).
Arguments Return {A} a.
Arguments ValueError {A} r.

Definition errors {A} (r : result A) : list reason :=
  match r with
  | Return _ => []
  | ValueError e => [e]
  end.

Definition value {A} (r : result A) : option A :=
  match r with
  | Return a => Some a
  | ValueError _ => None
  end.

(** The validators of one field run in order and stop at the first error. *)
Definition and_then {A B} (r : result A) (f : A -> result B) : result B :=
  match r with
  | Return a => f a
  | ValueError e => ValueError e
  end.

(** What [AuthJWT()] holds once it has read the [Authorization] header:
    no token, a bearer token that does not verify (bad signature,
    expired), or a token that verifies for a subject.  A header that is
    present and not of the form [Bearer <token>] never gets this far: see
    [header] and [AuthJWT] below. *)
Inductive credential :=
| NoToken
| BadToken
| ValidToken (subject : pystr).

(** [Authorize.jwt_required()]: [false] stands for the [AuthJWTException]
    it raises. *)
Definition jwt_required (Authorize : credential) : bool :=
  match Authorize with
  | ValidToken _ => true
  | _ => false
  end.

(** The responses of the service. *)
Inductive response :=
| Success (id : Z)                     (* 200 {"status": "success", "id": id, "success": true} *)
| BadRequest (detail : list reason)    (* 400, one entry per validation error *)
| Unauthenticated                      (* [authjwt_exception_handler] *)
| InternalServerError (e : db_error).  (* an exception nothing handles *)

Section Service.

(* ===================================================================== *)
(** ** Regular expressions ([re.match] on [str] patterns) *)
(* ===================================================================== *)

(** [str.isalnum] on the code points from 128 upwards: the Unicode
    character database is not part of the program, so it is a parameter.
    Below 128 the classification is the ASCII one, written out. *)
Variable unicode_isalnum : N -> bool.

Definition ascii_isalnum (c : N) : bool :=
  ((48 <=? c) && (c <=? 57) || (65 <=? c) && (c <=? 90) || (97 <=? c) && (c <=? 122))%N.

(** [\w] of a [str] pattern: alphanumeric, or the underscore. *)
Definition is_word (c : N) : bool :=
  if (c <? 128)%N then ascii_isalnum c || (c =? 95)%N else unicode_isalnum c.

(** Items of a bracket expression. *)
Inductive class_item :=
| Word                 (* \w *)
| Lit (c : N).         (* a literal character *)

Definition item_mem (c : N) (i : class_item) : bool :=
  match i with
  | Word => is_word c
  | Lit d => N.eqb c d
  end.

Inductive regex :=
| RNone                        (* matches nothing *)
| REps                         (* matches the empty string *)
| RSet (items : list class_item)
| RSeq (r1 r2 : regex)
| RAlt (r1 r2 : regex)
| RStar (r : regex).

Definition RPlus (r : regex) : regex := RSeq r (RStar r).

Fixpoint nullable (r : regex) : bool :=
  match r with
  | RNone => false
  | REps => true
  | RSet _ => false
  | RSeq a b => nullable a && nullable b
  | RAlt a b => nullable a || nullable b
  | RStar _ => true
  end.

Fixpoint deriv (c : N) (r : regex) : regex :=
  match r with
  | RNone => RNone
  | REps => RNone
  | RSet items => if existsb (item_mem c) items then REps else RNone
  | RSeq a b =>
      if nullable a then RAlt (RSeq (deriv c a) b) (deriv c b)
      else RSeq (deriv c a) b
  | RAlt a b => RAlt (deriv c a) (deriv c b)
  | RStar a => RSeq (deriv c a) (RStar a)
  end.

(** The whole of [s] is in the language of [r]. *)
Fixpoint full_match (r : regex) (s : pystr) : bool :=
  match s with
  | [] => nullable r
  | c :: s' => full_match (deriv c r) s'
  end.

(** [re.match('^' r '$', s)] without flags: [^] anchors at the start and
    [$] matches at the end of the string or just before a newline that is
    its last character. *)
Definition re_match_anchored (r : regex) (s : pystr) : bool :=
  full_match r s ||
  match rev s with
  | last :: before => N.eqb last 10 && full_match r (rev before)
  | [] => false
  end.

(** [[\w\.-]] *)
Definition word_dot_dash : regex := RSet [Word; Lit 46; Lit 45].

(** [pattern = r'^[\w\.-]+@[\w\.-]+\.\w+$'] without its anchors. *)
Definition pattern : regex :=
  RSeq (RPlus word_dot_dash)
    (RSeq (RSet [Lit 64])
       (RSeq (RPlus word_dot_dash)
          (RSeq (RSet [Lit 46])
             (RPlus (RSet [Word]))))).

(** The strings a regular expression denotes. *)
Inductive in_lang : regex -> pystr -> Prop :=
| in_eps : in_lang REps []
| in_set items c : existsb (item_mem c) items = true -> in_lang (RSet items) [c]
| in_seq a b s t : in_lang a s -> in_lang b t -> in_lang (RSeq a b) (s ++ t)
| in_alt_l a b s : in_lang a s -> in_lang (RAlt a b) s
| in_alt_r a b s : in_lang b s -> in_lang (RAlt a b) s
| in_star_nil a : in_lang (RStar a) []
| in_star_app a s t : in_lang a s -> in_lang (RStar a) t -> in_lang (RStar a) (s ++ t).

(** Non-empty strings over a character class. *)
Definition over (items : list class_item) (s : pystr) : Prop :=
  s <> [] /\ forallb (fun c => existsb (item_mem c) items) s = true.


(** [local@domain.tld]: a local part and a domain over [[\w.-]], a last
    label over [\w], none of them empty. *)
Definition email_shape (s : pystr) : Prop :=
  exists local domain tld,
    s = local ++ [64%N] ++ domain ++ [46%N] ++ tld /\
    over [Word; Lit 46; Lit 45] local /\
    over [Word; Lit 46; Lit 45] domain /\
    over [Word] tld.

(* ===================================================================== *)
(** ** The validators of the schemas *)
(* ===================================================================== *)

(** [Field(..., max_length=54)] *)
Definition max_length (n : Z) (v : pystr) : result pystr :=
  if n <? len v then ValueError MaxLengthExceeded else Return v.

Definition allowed_chars : pystr := str "0123456789abcdef".

(** [CreatePlayerItem.validate_name] *)
Definition validate_name (st : store) (name : pystr) : result pystr :=
  if negb (issubset name allowed_chars) then ValueError InvalidNameCharset
  else
    match Player_get_name st name with
    | None => Return name
    | Some _ => ValueError DuplicateName
    end.

(** [CreatePlayerItem.validate_email] *)
Definition validate_email (st : store) (email : pystr) : result pystr :=
  if negb (re_match_anchored pattern email) then ValueError InvalidEmailFormat
  else
    match Player_get_email st email with
    | None => Return email
    | Some _ => ValueError DuplicateEmail
    end.

(** [AddingPlayerInGame.validate_player_id] *)
Definition validate_player_id (st : store) (player_id : Z) : result Z :=
  match Player_get_pk st player_id with
  | None => ValueError PlayerNotFound
  | Some _ => Return player_id
  end.

(** The [values] dictionary a root validator receives: the fields that
    passed their own validation. *)
Record values := mkValues {
  get_game_id : option Z;      (* values.get('game_id') *)
  get_player_id : option Z     (* values.get('player_id') *)
}.

(** [x in queryset], where [x] may be [None]. *)
Definition contains (pks : list Z) (x : option Z) : bool :=
  match x with
  | Some k => existsb (Z.eqb k) pks
  | None => false
  end.

(** [AddingPlayerInGame.validate_game_id], the root validator. *)
Definition validate_game_id (st : store) (vals : values) : result values :=
  let player_id := get_player_id vals in
  let game_id := get_game_id vals in
  match match game_id with
        | Some k => Game_get_pk st k
        | None => None
        end with
  | None => ValueError GameNotFound
  | Some game =>
      if players_count st (Game.pk game) >? 4 then ValueError GameFull
      else if contains (players_pks st (Game.pk game)) player_id
           then ValueError AlreadyMember
           else Return vals
  end.

(** *** Building the schema objects

    pydantic validates the fields in declaration order, collects the error
    of every field that fails, then runs the root validators (also after a
    field failed: [@root_validator] is used without [skip_on_failure]) and
    raises all the errors together. *)

Definition parse_CreatePlayerItem (st : store) (name email : pystr)
  : list reason + CreatePlayerItem.t :=
  let r_name := and_then (max_length 54 name) (validate_name st) in
  let r_email := and_then (max_length 54 email) (validate_email st) in
  match r_name, r_email with
  | Return n, Return e => inr (CreatePlayerItem.mk n e)
  | _, _ => inl (errors r_name ++ errors r_email)
  end.

Definition parse_GameItem (name : pystr) : list reason + GameItem.t :=
  inr (GameItem.mk name).

Definition parse_AddingPlayerInGame (st : store) (game_id player_id : Z)
  : list reason + AddingPlayerInGame.t :=
  let r_player := validate_player_id st player_id in
  let vals := mkValues (Some game_id) (value r_player) in
  let r_root := validate_game_id st vals in
  match r_player, r_root with
  | Return p, Return _ => inr (AddingPlayerInGame.mk game_id p)
  | _, _ => inl (errors r_player ++ errors r_root)
  end.

(* ===================================================================== *)
(** ** The endpoints *)
(* ===================================================================== *)

(** [create_new_player] *)
Definition create_new_player (player : CreatePlayerItem.t) (Authorize : credential)
    (now : Z) (st : store) : response * store :=
  if negb (jwt_required Authorize) then (Unauthenticated, st)
  else
    match Player_save st (CreatePlayerItem.name player)
                         (CreatePlayerItem.email player) now with
    | inl e => (InternalServerError e, st)
    | inr (new_player, st') => (Success (Player.pk new_player), st')
    end.

(** [create_new_game] *)
Definition create_new_game (game : GameItem.t) (Authorize : credential)
    (now : Z) (st : store) : response * store :=
  if negb (jwt_required Authorize) then (Unauthenticated, st)
  else
    let (new_game, st') := Game_save st (GameItem.name game) now in
    (Success (Game.pk new_game), st').

(** [add_player_to_game] *)
Definition add_player_to_game (request_data : AddingPlayerInGame.t)
    (Authorize : credential) (st : store) : response * store :=
  if negb (jwt_required Authorize) then (Unauthenticated, st)
  else
    match Game_get_pk st (AddingPlayerInGame.game_id request_data) with
    | None => (InternalServerError DoesNotExist, st)
    | Some game =>
        (Success (AddingPlayerInGame.game_id request_data),
         players_add st (Game.pk game) (AddingPlayerInGame.player_id request_data))
    end.

(** [validation_exception_handler] *)
Definition validation_exception_handler (details : list reason) : response :=
  BadRequest details.

(* ===================================================================== *)
(** ** Requests *)
(* ===================================================================== *)

(** The body of a request, as sent. *)
Inductive request :=
| NewPlayer (name email : pystr)            (* POST /new_player *)
| NewGame (name : pystr)                    (* POST /new_game *)
| AddPlayerToGame (game_id player_id : Z).  (* POST /add_player_to_game *)

(** The body once its schema accepted it. *)
Inductive body :=
| PlayerBody (player : CreatePlayerItem.t)
| GameBody (game : GameItem.t)
| MemberBody (request_data : AddingPlayerInGame.t).

(** The framework builds the endpoint's argument from the body ... *)
Definition parse (st : store) (req : request) : list reason + body :=
  match req with
  | NewPlayer name email =>
      match parse_CreatePlayerItem st name email with
      | inl e => inl e
      | inr p => inr (PlayerBody p)
      end
  | NewGame name =>
      match parse_GameItem name with
      | inl e => inl e
      | inr g => inr (GameBody g)
      end
  | AddPlayerToGame game_id player_id =>
      match parse_AddingPlayerInGame st game_id player_id with
      | inl e => inl e
      | inr d => inr (MemberBody d)
      end
  end.

(** ... and calls the endpoint with it. *)
Definition endpoint (b : body) (Authorize : credential) (now : Z) (st : store)
  : response * store :=
  match b with
  | PlayerBody player => create_new_player player Authorize now st
  | GameBody game => create_new_game game Authorize now st
  | MemberBody request_data => add_player_to_game request_data Authorize st
  end.

(** One request, served alone: a body the schema refuses never reaches the
    endpoint. *)
Definition handle (req : request) (Authorize : credential) (now : Z) (st : store)
  : response * store :=
  match parse st req with
  | inl details => (validation_exception_handler details, st)
  | inr b => endpoint b Authorize now st
  end.

(** The validation errors of a request ([[]] when the schema accepts it). *)
Definition validation_errors (st : store) (req : request) : list reason :=
  match parse st req with
  | inl details => details
  | inr _ => []
  end.

(** A call: the request, the credential it carries, the time it is served. *)
Record call := mkCall {
  call_request : request;
  call_credential : credential;
  call_now : Z
}.

Definition serve (st : store) (c : call) : response * store :=
  handle (call_request c) (call_credential c) (call_now c) st.

(** Calls served one after the other: the responses and the final store. *)
Fixpoint run (st : store) (calls : list call) : list response * store :=
  match calls with
  | [] => ([], st)
  | c :: rest =>
      let (r, st1) := serve st c in
      let (rs, st2) := run st1 rest in
      (r :: rs, st2)
  end.

(** The store after each call. *)
Fixpoint stores (st : store) (calls : list call) : list store :=
  match calls with
  | [] => []
  | c :: rest => snd (serve st c) :: stores (snd (serve st c)) rest
  end.

(* ===================================================================== *)
(** ** The request as the framework serves it *)
(* ===================================================================== *)

(** The [Authorization] header of a request. *)
Inductive header :=
| NoHeader                              (* absent, or empty *)
| MalformedHeader                       (* present, not [Bearer <token>] *)
| BearerToken (verifies : option pystr).  (* [Bearer <token>]; the subject when the token verifies *)

(** [Authorize: AuthJWT = Depends()]: the dependency is built before the
    body is read.  Building it parses the header and raises
    [InvalidHeaderError] (an [AuthJWTException], status 422) for a
    malformed one: [None] here. *)
Definition AuthJWT (h : header) : option credential :=
  match h with
  | NoHeader => Some NoToken
  | MalformedHeader => None
  | BearerToken None => Some BadToken
  | BearerToken (Some subject) => Some (ValidToken subject)
  end.

(** The principal a header identifies, if any. *)
Definition principal (h : header) : option pystr :=
  match h with
  | BearerToken (Some subject) => Some subject
  | _ => None
  end.

(** The integers a key column holds. *)
Definition key_range (k : Z) : bool := (- 2 ^ 63 <=? k) && (k <? 2 ^ 63).

(** The keys a request makes the schema look up are all in range.  Both
    lookups of [AddingPlayerInGame] are always made: the root validator
    runs whatever [validate_player_id] gave. *)
Definition ids_in_range (req : request) : bool :=
  match req with
  | AddPlayerToGame game_id player_id => key_range player_id && key_range game_id
  | _ => true
  end.

(** What building the endpoint's argument comes to: a body, the errors the
    validators raised, or the [OverflowError] of a lookup by a key out of
    range, which is no [ValueError] and so is not collected. *)
Inductive validation :=
| Accepted (b : body)
| Refused (details : list reason)
| Overflow.

Definition validate (st : store) (req : request) : validation :=
  if ids_in_range req then
    match parse st req with
    | inl details => Refused details
    | inr b => Accepted b
    end
  else Overflow.

(** What the client gets: a response of the service, or the 500 of an
    exception that nothing handles. *)
Inductive reply :=
| Reply (r : response)
| UncaughtOverflowError.

(** One request, from the header on: the dependency, then the body, then
    the endpoint. *)
Definition respond (h : header) (req : request) (now : Z) (st : store)
  : reply * store :=
  match AuthJWT h with
  | None => (Reply Unauthenticated, st)
  | Some Authorize =>
      match validate st req with
      | Overflow => (UncaughtOverflowError, st)
      | Refused details => (Reply (validation_exception_handler details), st)
      | Accepted b =>
          let (r, st') := endpoint b Authorize now st in (Reply r, st')
      end
  end.

(* ===================================================================== *)
(** ** Overlapping requests *)
(* ===================================================================== *)

(** The schema is validated when the framework builds the endpoint's
    argument, and the endpoint runs afterwards: nothing holds the database
    between the two, so another request can be served in between.  A
    request in flight is in one of three stages. *)
Inductive task :=
| Received (c : call)
| Validated (b : body) (Authorize : credential) (now : Z)
| Responded (r : response).

(** One stage of one request. *)
Definition advance (st : store) (t : task) : task * store :=
  match t with
  | Received c =>
      match parse st (call_request c) with
      | inl details => (Responded (validation_exception_handler details), st)
      | inr b => (Validated b (call_credential c) (call_now c), st)
      end
  | Validated b Authorize now =>
      let (r, st') := endpoint b Authorize now st in (Responded r, st')
  | Responded r => (Responded r, st)
  end.

(** Advance the [i]-th request in flight. *)
Fixpoint advance_nth (i : nat) (st : store) (pool : list task) : list task * store :=
  match pool, i with
  | [], _ => ([], st)
  | t :: rest, O => let (t', st') := advance st t in (t' :: rest, st')
  | t :: rest, S j => let (rest', st') := advance_nth j st rest in (t :: rest', st')
  end.

(** A schedule says which request moves next. *)
Fixpoint interleave (schedule : list nat) (st : store) (pool : list task)
  : list task * store :=
  match schedule with
  | [] => (pool, st)
  | i :: later =>
      let (pool', st') := advance_nth i st pool in interleave later st' pool'
  end.

Definition answer (t : task) : option response :=
  match t with
  | Responded r => Some r
  | _ => None
  end.

(* ===================================================================== *)
(** ** Notions used in the statements *)
(* ===================================================================== *)

(** The errors the schema of [/add_player_to_game] reports. *)
Definition membership_errors (st : store) (game_id player_id : Z) : list reason :=
  match parse_AddingPlayerInGame st game_id player_id with
  | inl errs => errs
  | inr _ => []
  end.

(** The errors of the root validator, case by case. *)
Definition root_errors (st : store) (game_id : Z) (player_id : option Z) : list reason :=
  match Game_get_pk st game_id with
  | None => [GameNotFound]
  | Some _ =>
      if players_count st game_id >? 4 then [GameFull]
      else if contains (players_pks st game_id) player_id then [AlreadyMember]
      else []
  end.

(** The first check that fails, taking them in the order the player, the
    game, the capacity, the membership. *)
Definition first_failing_check (st : store) (game_id player_id : Z) : option reason :=
  match Player_get_pk st player_id with
  | None => Some PlayerNotFound
  | Some _ =>
      match Game_get_pk st game_id with
      | None => Some GameNotFound
      | Some _ =>
          if players_count st game_id >? 4 then Some GameFull
          else if existsb (Z.eqb player_id) (players_pks st game_id)
               then Some AlreadyMember
               else None
      end
  end.

(** Every game has at most 5 members and no member twice. *)
Definition members_ok (st : store) : Prop :=
  forall g, players_count st g <= 5 /\ NoDup (players_pks st g).

(** The characters [0-9a-f]. *)
Definition hex_digit (c : N) : Prop :=
  (48 <= c <= 57 \/ 97 <= c <= 102)%N.

(* ===================================================================== *)
(** ** The matcher and the language of the pattern *)
(* ===================================================================== *)

Lemma nullable_in_lang r : nullable r = true <-> in_lang r [].
Proof.
  induction r; simpl.
  - split; [discriminate | inversion 1].
  - split; [constructor | reflexivity].
  - split; [discriminate | inversion 1].
  - rewrite andb_true_iff, IHr1, IHr2. split.
    + intros [H1 H2]. apply (in_seq _ _ [] [] H1 H2).
    + inversion 1 as [| |a b s t Hs Ht E1 E2| | | |]; subst.
      apply app_eq_nil in E2. destruct E2; subst. auto.
  - rewrite orb_true_iff, IHr1, IHr2. split.
    + intros [H|H]; [apply in_alt_l | apply in_alt_r]; exact H.
    + inversion 1; subst; auto.
  - split; [constructor | reflexivity].
Qed.

(** A non-empty string of [a*] starts with a non-empty string of [a]. *)
Lemma in_star_cons a c s :
  in_lang (RStar a) (c :: s) ->
  exists s1 s2, s = s1 ++ s2 /\ in_lang a (c :: s1) /\ in_lang (RStar a) s2.
Proof.
  intros H. remember (RStar a) as r eqn:Er. remember (c :: s) as w eqn:Ew.
  revert Er Ew. induction H as [| | | | | |a' u v Hu _ Hv IH]; try discriminate.
  intros Er Ew. injection Er as ->.
  destruct u as [|x u]; simpl in Ew.
  - apply IH; [reflexivity | exact Ew].
  - injection Ew as -> <-. exists u, v. auto.
Qed.

Lemma deriv_in_lang c r : forall s, in_lang (deriv c r) s <-> in_lang r (c :: s).
Proof.
  induction r as [| |items|a IHa b IHb|a IHa b IHb|a IHa]; intros s; simpl.
  - split; inversion 1.
  - split; inversion 1.
  - destruct (existsb (item_mem c) items) eqn:E.
    + split.
      * inversion 1; subst. constructor. exact E.
      * inversion 1; subst. constructor.
    + split; [inversion 1|]. inversion 1; subst. congruence.
  - assert (S1 : forall u v, in_lang (deriv c a) u -> in_lang b v ->
                             in_lang (RSeq a b) (c :: u ++ v)).
    { intros u v Hu Hv. apply IHa in Hu. apply (in_seq _ _ (c :: u) v Hu Hv). }
    destruct (nullable a) eqn:Na.
    + split.
      * inversion 1 as [| | |a' b' s' H1| a' b' s' H1| |]; subst.
        -- inversion H1; subst. apply S1; assumption.
        -- apply IHb in H1. apply nullable_in_lang in Na.
           apply (in_seq _ _ [] (c :: s) Na H1).
      * inversion 1 as [| |a' b' u v Hu Hv E1 E2| | | |]; subst.
        destruct u as [|x u]; simpl in E2.
        -- subst v. apply in_alt_r. apply IHb. exact Hv.
        -- injection E2 as -> <-. apply in_alt_l. constructor; [apply IHa|]; assumption.
    + split.
      * inversion 1; subst. apply S1; assumption.
      * inversion 1 as [| |a' b' u v Hu Hv E1 E2| | | |]; subst.
        destruct u as [|x u]; simpl in E2.
        -- apply nullable_in_lang in Hu. congruence.
        -- injection E2 as -> <-. constructor; [apply IHa|]; assumption.
  - split.
    + inversion 1; subst; [apply in_alt_l, IHa | apply in_alt_r, IHb]; assumption.
    + inversion 1; subst; [apply in_alt_l, IHa | apply in_alt_r, IHb]; assumption.
  - split.
    + inversion 1 as [| |a' b' u v Hu Hv E1 E2| | | |]; subst.
      apply IHa in Hu. apply (in_star_app _ (c :: u) v Hu Hv).
    + intros H. apply in_star_cons in H. destruct H as (s1 & s2 & -> & H1 & H2).
      constructor; [apply IHa|]; assumption.
Qed.

Theorem full_match_in_lang s : forall r, full_match r s = true <-> in_lang r s.
Proof.
  induction s as [|c s IH]; intros r; simpl.
  - apply nullable_in_lang.
  - rewrite IH. apply deriv_in_lang.
Qed.

Lemma in_star_set items s :
  in_lang (RStar (RSet items)) s <->
  forallb (fun c => existsb (item_mem c) items) s = true.
Proof.
  split.
  - intros H. remember (RStar (RSet items)) as r eqn:Er. revert Er.
    induction H as [| | | | | |a u v Hu _ Hv IH]; try discriminate; intros Er.
    + reflexivity.
    + injection Er as ->. inversion Hu; subst. simpl.
      rewrite IH by reflexivity. rewrite andb_true_r. assumption.
  - induction s as [|c s IH]; simpl; [constructor|].
    rewrite andb_true_iff. intros [Hc Hs].
    apply (in_star_app _ [c] s); [constructor; exact Hc | apply IH; exact Hs].
Qed.

Lemma in_plus_set items s : in_lang (RPlus (RSet items)) s <-> over items s.
Proof.
  unfold RPlus, over. split.
  - inversion 1 as [| |a b u v Hu Hv E1 E2| | | |]; subst.
    inversion Hu; subst. apply in_star_set in Hv. simpl. split; [discriminate|].
    rewrite Hv. rewrite andb_true_r. assumption.
  - intros [Hne H]. destruct s as [|c s]; [congruence|]. simpl in H.
    apply andb_true_iff in H. destruct H as [Hc Hs].
    apply (in_seq _ _ [c] s); [constructor; exact Hc | apply in_star_set; exact Hs].
Qed.

Lemma in_lit c s : in_lang (RSet [Lit c]) s <-> s = [c].
Proof.
  split.
  - inversion 1 as [|items x E| | | | |]; subst. simpl in E.
    rewrite orb_false_r in E. apply N.eqb_eq in E. now subst.
  - intros ->. constructor. simpl. now rewrite N.eqb_refl.
Qed.

Lemma pattern_in_lang s : in_lang pattern s <-> email_shape s.
Proof.
  unfold pattern, email_shape, word_dot_dash. split.
  - inversion 1 as [| |a1 b1 l r1 Hl H1 E1 E2| | | |]; subst.
    inversion H1 as [| |a2 b2 at_ r2 Hat H2 E3 E4| | | |]; subst.
    inversion H2 as [| |a3 b3 d r3 Hd H3 E5 E6| | | |]; subst.
    inversion H3 as [| |a4 b4 dot t Hdot Ht E7 E8| | | |]; subst.
    apply in_lit in Hat, Hdot. subst.
    exists l, d, t. rewrite <- !in_plus_set. auto.
  - intros (l & d & t & -> & Hl & Hd & Ht). rewrite <- in_plus_set in Hl, Hd, Ht.
    repeat (constructor; try assumption); apply in_lit; reflexivity.
Qed.

(** X17: what [re.match(pattern, email)] accepts: an address of the shape
    [local@domain.tld], possibly followed by one newline; nothing else. *)
Theorem re_match_pattern s :
  re_match_anchored pattern s = true <->
  email_shape s \/ exists s0, s = s0 ++ [10%N] /\ email_shape s0.
Proof.
  unfold re_match_anchored. rewrite orb_true_iff, full_match_in_lang, pattern_in_lang.
  split; (intros [H|H]; [now left | right]).
  - destruct (rev s) as [|c before] eqn:E; [discriminate|].
    apply andb_true_iff in H. destruct H as [Hc H]. apply N.eqb_eq in Hc. subst c.
    exists (rev before). split.
    + rewrite <- (rev_involutive s), E. reflexivity.
    + apply pattern_in_lang, full_match_in_lang. exact H.
  - destruct H as (s0 & -> & H0). rewrite rev_app_distr. simpl.
    rewrite rev_involutive. apply full_match_in_lang, pattern_in_lang. exact H0.
Qed.

(* ===================================================================== *)
(** ** Basic facts about the store *)
(* ===================================================================== *)

Lemma eqb_str_eq (a b : pystr) : eqb_str a b = true <-> a = b.
Proof.
  revert b; induction a as [|x a IH]; intros [|y b]; simpl;
    try (split; [discriminate | congruence]); try tauto.
  rewrite andb_true_iff, N.eqb_eq, IH. split.
  - intros [-> ->]; reflexivity.
  - intros E; injection E; auto.
Qed.

(** Each reason has a text of its own. *)
Lemma msg_injective (a b : reason) : msg a = msg b -> a = b.
Proof. destruct a, b; simpl; intros E; try reflexivity; discriminate E. Qed.

Lemma find_none_iff {A} (f : A -> bool) (l : list A) :
  find f l = None <-> forall x, In x l -> f x = false.
Proof.
  split.
  - apply find_none.
  - induction l as [|a l IH]; simpl; intros H; [reflexivity|].
    rewrite (H a (or_introl eq_refl)). apply IH. intros x Hx. apply H. now right.
Qed.

Lemma Game_get_pk_pk st k game : Game_get_pk st k = Some game -> Game.pk game = k.
Proof.
  unfold Game_get_pk. intros H. apply find_some in H. destruct H as [_ H].
  now apply Z.eqb_eq.
Qed.

Lemma existsb_Zeqb_In (k : Z) (l : list Z) : existsb (Z.eqb k) l = true <-> In k l.
Proof.
  rewrite existsb_exists. split.
  - intros [x [Hx E]]. apply Z.eqb_eq in E. now subst.
  - intros H. exists k. split; [assumption | apply Z.eqb_refl].
Qed.

(* ===================================================================== *)
(** ** What the schema of [/add_player_to_game] accepts and refuses *)
(* ===================================================================== *)

Lemma validate_game_id_errors st game_id player_id :
  errors (validate_game_id st (mkValues (Some game_id) player_id)) =
  root_errors st game_id player_id.
Proof.
  unfold validate_game_id, root_errors; simpl.
  destruct (Game_get_pk st game_id) as [game|] eqn:G; [|reflexivity].
  rewrite (Game_get_pk_pk _ _ _ G).
  destruct (players_count st game_id >? 4); [reflexivity|].
  destruct (contains (players_pks st game_id) player_id); reflexivity.
Qed.

(** The outcome of the schema: the error of [player_id], if any, followed
    by the error of the root validator, if any. *)
Lemma parse_AddingPlayerInGame_spec st game_id player_id :
  parse_AddingPlayerInGame st game_id player_id =
  match Player_get_pk st player_id with
  | None =>
      inl (PlayerNotFound :: root_errors st game_id None)
  | Some _ =>
      match root_errors st game_id (Some player_id) with
      | [] => inr (AddingPlayerInGame.mk game_id player_id)
      | errs => inl errs
      end
  end.
Proof.
  unfold parse_AddingPlayerInGame, validate_player_id.
  destruct (Player_get_pk st player_id) as [p|]; simpl.
  - rewrite <- validate_game_id_errors.
    destruct (validate_game_id st (mkValues (Some game_id) (Some player_id))); reflexivity.
  - rewrite <- validate_game_id_errors. reflexivity.
Qed.

(** An accepted body: both rows exist, the game has at most 4 members and
    the player is not one of them. *)
Lemma parse_AddingPlayerInGame_inr st game_id player_id d :
  parse_AddingPlayerInGame st game_id player_id = inr d ->
  d = AddingPlayerInGame.mk game_id player_id /\
  Player_get_pk st player_id <> None /\
  Game_get_pk st game_id <> None /\
  players_count st game_id <= 4 /\
  ~ In player_id (players_pks st game_id).
Proof.
  rewrite parse_AddingPlayerInGame_spec.
  destruct (Player_get_pk st player_id) as [p|]; [|discriminate].
  unfold root_errors.
  destruct (Game_get_pk st game_id) as [game|]; [|discriminate].
  destruct (players_count st game_id >? 4) eqn:C; [discriminate|].
  simpl. destruct (existsb (Z.eqb player_id) (players_pks st game_id)) eqn:M; [discriminate|].
  intros E. injection E as <-. repeat split; try discriminate.
  - rewrite Z.gtb_ltb in C. apply Z.ltb_ge in C. exact C.
  - rewrite <- existsb_Zeqb_In, M. discriminate.
Qed.

Lemma membership_errors_spec st game_id player_id :
  membership_errors st game_id player_id =
  match Player_get_pk st player_id with
  | None => PlayerNotFound :: root_errors st game_id None
  | Some _ => root_errors st game_id (Some player_id)
  end.
Proof.
  unfold membership_errors. rewrite parse_AddingPlayerInGame_spec.
  destruct (Player_get_pk st player_id); [|reflexivity].
  destruct (root_errors st game_id (Some player_id)); reflexivity.
Qed.

(** The endpoint on an accepted body. *)
Lemma add_player_to_game_accepted st game_id player_id d Authorize :
  parse_AddingPlayerInGame st game_id player_id = inr d ->
  add_player_to_game d Authorize st =
  if jwt_required Authorize
  then (Success game_id,
        mkStore (players st) (games st) (game_players st ++ [(game_id, player_id)])
                (player_seq st) (game_seq st))
  else (Unauthenticated, st).
Proof.
  intros H. apply parse_AddingPlayerInGame_inr in H.
  destruct H as (-> & _ & G & _ & M).
  unfold add_player_to_game; simpl.
  destruct (jwt_required Authorize); simpl; [|reflexivity].
  destruct (Game_get_pk st game_id) as [game|] eqn:E; [|congruence].
  rewrite (Game_get_pk_pk _ _ _ E). unfold players_add.
  destruct (existsb (Z.eqb player_id) (players_pks st game_id)) eqn:X; [|reflexivity].
  apply existsb_Zeqb_In in X. contradiction.
Qed.

Lemma handle_add st game_id player_id Authorize now :
  handle (AddPlayerToGame game_id player_id) Authorize now st =
  match parse_AddingPlayerInGame st game_id player_id with
  | inl errs => (BadRequest errs, st)
  | inr d => add_player_to_game d Authorize st
  end.
Proof.
  unfold handle; simpl.
  destruct (parse_AddingPlayerInGame st game_id player_id); reflexivity.
Qed.

Lemma players_pks_append st game_id player_id g :
  players_pks (mkStore (players st) (games st)
                 (game_players st ++ [(game_id, player_id)])
                 (player_seq st) (game_seq st)) g =
  if game_id =? g then players_pks st g ++ [player_id] else players_pks st g.
Proof.
  unfold players_pks; simpl. rewrite filter_app, map_app; simpl.
  destruct (game_id =? g); simpl; [reflexivity | apply app_nil_r].
Qed.

(* ===================================================================== *)
(** ** The invariant of the member sets *)
(* ===================================================================== *)

Lemma members_ok_same_rows st st' :
  game_players st' = game_players st -> members_ok st -> members_ok st'.
Proof.
  intros E H g. unfold players_count, players_pks. rewrite E. apply H.
Qed.

Lemma NoDup_snoc {A} (l : list A) (x : A) : NoDup l -> ~ In x l -> NoDup (l ++ [x]).
Proof.
  intros H N. induction H as [|y l Hy Hl IH]; simpl.
  - constructor; [intros []| constructor].
  - constructor.
    + rewrite in_app_iff. simpl. intros [?|[?|[]]]; [contradiction|].
      subst. apply N. now left.
    + apply IH. intros ?. apply N. now right.
Qed.

Lemma create_new_player_rows player Authorize now st :
  game_players (snd (create_new_player player Authorize now st)) = game_players st.
Proof.
  unfold create_new_player, Player_save.
  destruct (jwt_required Authorize); simpl; [|reflexivity].
  destruct (Player_get_name st _); [reflexivity|].
  destruct (Player_get_email st _); reflexivity.
Qed.

Lemma create_new_game_rows game Authorize now st :
  game_players (snd (create_new_game game Authorize now st)) = game_players st.
Proof.
  unfold create_new_game. destruct (jwt_required Authorize); reflexivity.
Qed.

Lemma handle_members_ok req Authorize now st :
  members_ok st -> members_ok (snd (handle req Authorize now st)).
Proof.
  intros H. destruct req as [name email | name | game_id player_id].
  - unfold handle; simpl. destruct (parse_CreatePlayerItem st name email); simpl.
    + assumption.
    + eapply members_ok_same_rows; [apply create_new_player_rows | assumption].
  - unfold handle; simpl.
    eapply members_ok_same_rows; [apply create_new_game_rows | assumption].
  - rewrite handle_add.
    destruct (parse_AddingPlayerInGame st game_id player_id) as [errs|d] eqn:P;
      simpl; [assumption|].
    rewrite (add_player_to_game_accepted _ _ _ _ _ P).
    destruct (jwt_required Authorize); simpl; [|assumption].
    apply parse_AddingPlayerInGame_inr in P. destruct P as (_ & _ & _ & C & M).
    intros g. unfold players_count. rewrite players_pks_append.
    destruct (game_id =? g) eqn:E.
    + apply Z.eqb_eq in E. subst g. split.
      * unfold players_count in C. rewrite length_app. simpl. lia.
      * apply NoDup_snoc; [apply H | assumption].
    + apply H.
Qed.

(* ===================================================================== *)
(** ** Properties of membership validation *)
(* ===================================================================== *)

(** C2: for a player and a game that exist, the schema of
    [/add_player_to_game] reports [GameFull] exactly when the game has more
    than 4 members before the addition; with 4 members or fewer it never
    does.  An accepted addition therefore leaves at most 5 members, and it
    does add one, so a game of 4 reaches 5. *)
Theorem C2_game_full_iff_more_than_four st game_id player_id :
  Player_get_pk st player_id <> None ->
  Game_get_pk st game_id <> None ->
  (membership_errors st game_id player_id = [GameFull] <-> players_count st game_id > 4) /\
  (In GameFull (membership_errors st game_id player_id) <-> players_count st game_id > 4) /\
  (players_count st game_id <= 4 -> ~ In GameFull (membership_errors st game_id player_id)) /\
  (forall d subject,
      parse_AddingPlayerInGame st game_id player_id = inr d ->
      let st' := snd (add_player_to_game d (ValidToken subject) st) in
      players_count st' game_id = players_count st game_id + 1 /\
      players_count st' game_id <= 5).
Proof.
  intros HP HG.
  assert (E : membership_errors st game_id player_id =
              if players_count st game_id >? 4 then [GameFull]
              else if existsb (Z.eqb player_id) (players_pks st game_id)
                   then [AlreadyMember] else []).
  { rewrite membership_errors_spec. unfold root_errors.
    destruct (Player_get_pk st player_id); [|congruence].
    destruct (Game_get_pk st game_id); [|congruence]. reflexivity. }
  assert (F : In GameFull (membership_errors st game_id player_id) <->
              players_count st game_id > 4).
  { rewrite E. destruct (players_count st game_id >? 4) eqn:C.
    - rewrite Z.gtb_ltb in C. apply Z.ltb_lt in C. simpl. split; [lia | auto].
    - rewrite Z.gtb_ltb in C. apply Z.ltb_ge in C. split; [|lia].
      destruct (existsb _ _); simpl; intuition discriminate. }
  repeat split.
  - intros X. apply F. rewrite X. now left.
  - intros X. rewrite E. destruct (players_count st game_id >? 4) eqn:C; [reflexivity|].
    rewrite Z.gtb_ltb in C. apply Z.ltb_ge in C. lia.
  - apply F.
  - apply F.
  - intros X Y. apply F in Y. lia.
  - rewrite (add_player_to_game_accepted _ _ _ _ _ H). simpl.
    unfold players_count. rewrite players_pks_append, Z.eqb_refl, length_app. simpl. lia.
  - rewrite (add_player_to_game_accepted _ _ _ _ _ H). simpl.
    apply parse_AddingPlayerInGame_inr in H. destruct H as (_ & _ & _ & C & _).
    unfold players_count in *. rewrite players_pks_append, Z.eqb_refl, length_app. simpl. lia.
Qed.

(** C6 (as amended): for a game key and a player key within the range of
    the key columns, the checks run in the order PlayerNotFound,
    GameNotFound, GameFull, AlreadyMember, and the first one that fails is
    the first reason reported.  The three checks on the game stop at their
    first failure, but a missing player does not stop them: GameNotFound or
    GameFull is then reported as a second reason.  With no reason the body
    is accepted as sent. *)
Theorem C6_checks_in_order st game_id player_id :
  key_range game_id = true ->
  key_range player_id = true ->
  let errs :=
    match Player_get_pk st player_id, Game_get_pk st game_id with
    | None, None => [PlayerNotFound; GameNotFound]
    | None, Some _ =>
        if players_count st game_id >? 4 then [PlayerNotFound; GameFull]
        else [PlayerNotFound]
    | Some _, None => [GameNotFound]
    | Some _, Some _ =>
        if players_count st game_id >? 4 then [GameFull]
        else if existsb (Z.eqb player_id) (players_pks st game_id)
             then [AlreadyMember]
             else []
    end in
  validate st (AddPlayerToGame game_id player_id) =
    match errs with
    | [] => Accepted (MemberBody (AddingPlayerInGame.mk game_id player_id))
    | _ :: _ => Refused errs
    end /\
  membership_errors st game_id player_id = errs /\
  hd_error errs = first_failing_check st game_id player_id.
Proof.
  intros Hg Hp. unfold validate. simpl. rewrite Hp, Hg. simpl.
  rewrite membership_errors_spec, parse_AddingPlayerInGame_spec.
  unfold first_failing_check, root_errors.
  destruct (Player_get_pk st player_id), (Game_get_pk st game_id); simpl;
    try (repeat split; reflexivity);
    destruct (players_count st game_id >? 4); simpl; try (repeat split; reflexivity);
    destruct (existsb (Z.eqb player_id) (players_pks st game_id));
    repeat split; reflexivity.
Qed.

(** C3: along every sequence of calls, served one after the other from a
    store whose games have at most 5 members and no member twice, every
    game has at most 5 members and no member twice after each call. *)
Theorem C3_member_sets_stay_within_five (calls : list call) (st : store) :
  members_ok st -> Forall members_ok (stores st calls).
Proof.
  revert st. induction calls as [|c rest IH]; intros st H; simpl.
  - constructor.
  - assert (H1 : members_ok (snd (serve st c))) by (apply handle_members_ok; exact H).
    constructor; [exact H1 | apply IH; exact H1].
Qed.

(** C9 (as amended): after a call of [/add_player_to_game] that succeeds,
    a second call with the same pair is refused and writes nothing.  The
    reason is AlreadyMember when the game had fewer than 4 members before
    the first call, and GameFull when it had 4: the capacity is checked
    before the membership. *)
Theorem C9_second_call_rejected st game_id player_id a1 now1 a2 now2 :
  fst (handle (AddPlayerToGame game_id player_id) a1 now1 st) = Success game_id ->
  let st1 := snd (handle (AddPlayerToGame game_id player_id) a1 now1 st) in
  players_pks st1 game_id = players_pks st game_id ++ [player_id] /\
  handle (AddPlayerToGame game_id player_id) a2 now2 st1 =
    (BadRequest [if players_count st game_id <? 4 then AlreadyMember else GameFull], st1).
Proof.
  rewrite handle_add.
  destruct (parse_AddingPlayerInGame st game_id player_id) as [errs|d] eqn:P;
    [discriminate|].
  rewrite (add_player_to_game_accepted _ _ _ _ _ P).
  destruct (jwt_required a1); [|discriminate]. simpl. intros _.
  apply parse_AddingPlayerInGame_inr in P. destruct P as (_ & HP & HG & C & M).
  split; [rewrite players_pks_append, Z.eqb_refl; reflexivity|].
  rewrite handle_add, parse_AddingPlayerInGame_spec.
  unfold Player_get_pk, root_errors, Game_get_pk, players_count in *; simpl.
  destruct (find _ (players st)); [|congruence].
  destruct (find _ (games st)); [|congruence].
  rewrite players_pks_append, Z.eqb_refl, length_app. simpl.
  destruct (Z.of_nat (List.length (players_pks st game_id)) <? 4) eqn:L.
  - apply Z.ltb_lt in L.
    replace (Z.of_nat (List.length (players_pks st game_id) + 1) >? 4) with false
      by (symmetry; rewrite Z.gtb_ltb; apply Z.ltb_ge; lia).
    rewrite existsb_app. simpl. rewrite Z.eqb_refl, orb_true_r. reflexivity.
  - apply Z.ltb_ge in L.
    replace (Z.of_nat (List.length (players_pks st game_id) + 1) >? 4) with true
      by (symmetry; rewrite Z.gtb_ltb; apply Z.ltb_lt; lia).
    reflexivity.
Qed.

(** C4 (as amended): a call of [/add_player_to_game] that carries a valid
    token and passes validation appends [player_id] to the members of the
    game and answers with [game_id]; the memberships of the other games and
    the rows of the [Game] and [Player] tables, timestamps included, stay
    as they were. *)
Theorem C4_add_appends_and_echoes st game_id player_id d subject now :
  parse_AddingPlayerInGame st game_id player_id = inr d ->
  let r := fst (handle (AddPlayerToGame game_id player_id) (ValidToken subject) now st) in
  let st' := snd (handle (AddPlayerToGame game_id player_id) (ValidToken subject) now st) in
  r = Success game_id /\
  players_pks st' game_id = players_pks st game_id ++ [player_id] /\
  (forall g, g <> game_id -> players_pks st' g = players_pks st g) /\
  games st' = games st /\
  players st' = players st.
Proof.
  intros P. rewrite handle_add, P, (add_player_to_game_accepted _ _ _ _ _ P). simpl.
  repeat split.
  - rewrite players_pks_append, Z.eqb_refl. reflexivity.
  - intros g Hg. rewrite players_pks_append.
    destruct (game_id =? g) eqn:E; [apply Z.eqb_eq in E; congruence | reflexivity].
Qed.

(* ===================================================================== *)
(** ** Rejections: the schema before the endpoint *)
(* ===================================================================== *)

Lemma parse_CreatePlayerItem_errors st name email :
  match parse_CreatePlayerItem st name email with
  | inl errs =>
      errs = errors (and_then (max_length 54 name) (validate_name st)) ++
             errors (and_then (max_length 54 email) (validate_email st)) /\
      errs <> []
  | inr player =>
      and_then (max_length 54 name) (validate_name st) =
        Return (CreatePlayerItem.name player) /\
      and_then (max_length 54 email) (validate_email st) =
        Return (CreatePlayerItem.email player)
  end.
Proof.
  unfold parse_CreatePlayerItem.
  destruct (and_then (max_length 54 name) (validate_name st)),
           (and_then (max_length 54 email) (validate_email st)); simpl;
    split; try reflexivity; discriminate.
Qed.

(** A refusal always carries a reason. *)
Lemma parse_inl_nonempty st req errs : parse st req = inl errs -> errs <> [].
Proof.
  destruct req as [name email | name | game_id player_id]; simpl.
  - pose proof (parse_CreatePlayerItem_errors st name email) as H.
    destruct (parse_CreatePlayerItem st name email); [|discriminate].
    intros E. injection E as <-. apply H.
  - discriminate.
  - rewrite parse_AddingPlayerInGame_spec.
    destruct (Player_get_pk st player_id).
    + destruct (root_errors st game_id (Some player_id)) eqn:R; [discriminate|].
      intros E. injection E as <-. discriminate.
    + intros E. injection E as <-. discriminate.
Qed.

Lemma handle_rejected st req Authorize now :
  validation_errors st req <> [] ->
  handle req Authorize now st = (BadRequest (validation_errors st req), st).
Proof.
  unfold validation_errors, handle.
  destruct (parse st req); [reflexivity | congruence].
Qed.

Lemma endpoint_unauthenticated b Authorize now st :
  jwt_required Authorize = false -> endpoint b Authorize now st = (Unauthenticated, st).
Proof.
  intros H. destruct b; simpl;
    unfold create_new_player, create_new_game, add_player_to_game; rewrite H; reflexivity.
Qed.

(** A request whose header parses and whose keys are in range is served as
    [handle] says. *)
Lemma respond_handle h Authorize req now st :
  AuthJWT h = Some Authorize ->
  ids_in_range req = true ->
  respond h req now st =
  (Reply (fst (handle req Authorize now st)), snd (handle req Authorize now st)).
Proof.
  intros A R. unfold respond, validate, handle. rewrite A, R.
  destruct (parse st req) as [errs|b]; [reflexivity|].
  destruct (endpoint b Authorize now st); reflexivity.
Qed.

(** Without a principal, nothing is written, whatever the header. *)
Lemma respond_without_principal h req now st :
  principal h = None -> snd (respond h req now st) = st.
Proof.
  intros H.
  assert (A : AuthJWT h = None \/
              exists Authorize, AuthJWT h = Some Authorize /\ jwt_required Authorize = false).
  { destruct h as [| |[subject|]]; simpl in *; try discriminate; eauto. }
  unfold respond. destruct A as [->|(Authorize & -> & J)]; [reflexivity|].
  destruct (validate st req) as [b|details|]; try reflexivity.
  rewrite (endpoint_unauthenticated b Authorize now st J). reflexivity.
Qed.

(** C1 (as amended): a call without a valid principal never writes.  When
    its [Authorization] header is malformed it is rejected as
    Unauthenticated before anything is validated.  When the header is
    absent or its token does not verify, the body is validated first, as
    for any call: for keys within the range of the key columns, a body the
    schema refuses is answered with the 400 and the validation reasons,
    and only a body the schema accepts is answered Unauthenticated (always
    so for [/new_game], whose schema has no validator). *)
Theorem C1_no_token_no_write h req now st :
  principal h = None ->
  snd (respond h req now st) = st /\
  (h = MalformedHeader -> fst (respond h req now st) = Reply Unauthenticated) /\
  (h <> MalformedHeader ->
   ids_in_range req = true ->
   fst (respond h req now st) =
     Reply (match validation_errors st req with
            | [] => Unauthenticated
            | errs => BadRequest errs
            end)) /\
  (forall name, req = NewGame name -> fst (respond h req now st) = Reply Unauthenticated).
Proof.
  intros H. split; [apply respond_without_principal; exact H|]. split; [|split].
  - intros ->. reflexivity.
  - intros M R.
    assert (A : exists Authorize, AuthJWT h = Some Authorize /\ jwt_required Authorize = false).
    { destruct h as [| |[subject|]]; simpl in *; try discriminate; try congruence; eauto. }
    destruct A as (Authorize & A & J).
    rewrite (respond_handle _ _ _ _ _ A R). simpl. f_equal.
    unfold validation_errors, handle.
    destruct (parse st req) as [errs|b] eqn:P.
    + apply parse_inl_nonempty in P. destruct errs; [congruence | reflexivity].
    + rewrite (endpoint_unauthenticated _ _ _ _ J). reflexivity.
  - intros name ->.
    destruct h as [| |[subject|]]; simpl in *; try discriminate; reflexivity.
Qed.

(** C7: a call whose validation fails leaves the store exactly as it was
    and is answered with the validation reasons (unless a malformed header
    had it rejected before the validation).  In particular a call of
    [/add_player_to_game] on a game that has 5 members writes nothing, the
    game still has 5 members, and for keys within the range of the key
    columns the call is refused with GameFull among the reasons. *)
Theorem C7_rejected_calls_write_nothing h req now st :
  (forall errs,
      validate st req = Refused errs ->
      errs <> [] /\
      snd (respond h req now st) = st /\
      (AuthJWT h <> None -> fst (respond h req now st) = Reply (BadRequest errs))) /\
  (forall game_id player_id,
      req = AddPlayerToGame game_id player_id ->
      Game_get_pk st game_id <> None ->
      players_count st game_id = 5 ->
      snd (respond h req now st) = st /\
      players_count (snd (respond h req now st)) game_id = 5 /\
      (ids_in_range req = true ->
       exists errs, validate st req = Refused errs /\ In GameFull errs)).
Proof.
  split.
  - intros errs V. unfold respond. rewrite V.
    split.
    + unfold validate in V. destruct (ids_in_range req); [|discriminate].
      destruct (parse st req) as [e|b] eqn:P; [|discriminate].
      injection V as <-. apply (parse_inl_nonempty _ _ _ P).
    + destruct (AuthJWT h); simpl; split; try reflexivity; congruence.
  - intros game_id player_id -> G C.
    assert (F : ids_in_range (AddPlayerToGame game_id player_id) = true ->
                exists errs, validate st (AddPlayerToGame game_id player_id) = Refused errs /\
                             In GameFull errs).
    { intros R. unfold validate. rewrite R. simpl.
      rewrite parse_AddingPlayerInGame_spec. unfold root_errors.
      destruct (Game_get_pk st game_id); [|congruence].
      replace (players_count st game_id >? 4) with true by (rewrite C; reflexivity).
      destruct (Player_get_pk st player_id); simpl; eexists; split;
        try reflexivity; simpl; auto. }
    assert (S : snd (respond h (AddPlayerToGame game_id player_id) now st) = st).
    { unfold respond. destruct (AuthJWT h); [|reflexivity].
      destruct (ids_in_range (AddPlayerToGame game_id player_id)) eqn:R.
      - destruct (F eq_refl) as (errs & V & _). rewrite V. reflexivity.
      - unfold validate. rewrite R. reflexivity. }
    split; [exact S|]. split; [rewrite S; exact C | exact F].
Qed.

(* ===================================================================== *)
(** ** Creating players *)
(* ===================================================================== *)

Lemma mem_allowed_chars (c : N) : mem_char c allowed_chars = true <-> hex_digit c.
Proof.
  unfold mem_char, hex_digit.
  change allowed_chars with [48; 49; 50; 51; 52; 53; 54; 55; 56; 57; 97; 98; 99; 100; 101; 102]%N.
  simpl. rewrite !orb_true_iff, !N.eqb_eq. lia.
Qed.

Lemma issubset_allowed_chars (name : pystr) :
  issubset name allowed_chars = true <-> Forall hex_digit name.
Proof.
  unfold issubset. rewrite forallb_forall, Forall_forall.
  split; intros H c Hc; apply mem_allowed_chars, H, Hc.
Qed.


Lemma max_length_ok (v : pystr) : len v <= 54 -> max_length 54 v = Return v.
Proof.
  intros H. unfold max_length.
  destruct (54 <? len v) eqn:E; [apply Z.ltb_lt in E; lia | reflexivity].
Qed.



Lemma validation_errors_NewPlayer st name email :
  validation_errors st (NewPlayer name email) =
  errors (and_then (max_length 54 name) (validate_name st)) ++
  errors (and_then (max_length 54 email) (validate_email st)).
Proof.
  unfold validation_errors; simpl.
  pose proof (parse_CreatePlayerItem_errors st name email) as H.
  destruct (parse_CreatePlayerItem st name email).
  - apply H.
  - destruct H as [-> ->]. reflexivity.
Qed.


(** C10: the empty name passes the character check: a call of
    [/new_player] with the name [""] is never refused for
    InvalidNameCharset, and with a valid token it succeeds whenever no
    player has the empty name and the email passes its checks; the new
    player is stored under the next key with the empty name. *)
Theorem C10_empty_name_accepted st email Authorize now :
  validate_name st [] <> ValueError InvalidNameCharset /\
  ~ In InvalidNameCharset (validation_errors st (NewPlayer [] email)) /\
  (Player_get_name st [] = None ->
   and_then (max_length 54 email) (validate_email st) = Return email ->
   jwt_required Authorize = true ->
   handle (NewPlayer [] email) Authorize now st =
     (Success (player_seq st),
      mkStore (players st ++ [Player.mk (player_seq st) [] email now now])
              (games st) (game_players st) (player_seq st + 1) (game_seq st))).
Proof.
  assert (V : validate_name st [] <> ValueError InvalidNameCharset).
  { unfold validate_name; simpl. destruct (Player_get_name st []); discriminate. }
  split; [exact V|]. split.
  - rewrite validation_errors_NewPlayer. rewrite in_app_iff. intros [H|H].
    + unfold max_length in H; simpl in H. unfold validate_name in H; simpl in H.
      destruct (Player_get_name st []); simpl in H; intuition discriminate.
    + unfold max_length, validate_email in H.
      destruct (54 <? len email); simpl in H; [intuition discriminate|].
      destruct (negb (re_match_anchored pattern email)); simpl in H;
        [intuition discriminate|].
      destruct (Player_get_email st email); simpl in H; intuition discriminate.
  - intros Hn He Ha. unfold handle; simpl. unfold parse_CreatePlayerItem.
    rewrite He. unfold max_length at 1; simpl. unfold validate_name; simpl.
    rewrite Hn. unfold endpoint, create_new_player. rewrite Ha.
    cbn [negb CreatePlayerItem.name CreatePlayerItem.email].
    unfold Player_save. rewrite Hn.
    assert (Player_get_email st email = None) as ->; [|reflexivity].
    unfold max_length, validate_email in He.
    destruct (54 <? len email); [discriminate|]. simpl in He.
    destruct (negb (re_match_anchored pattern email)); [discriminate|].
    destruct (Player_get_email st email); [discriminate | reflexivity].
Qed.

(* ===================================================================== *)
(** ** The rest of the service: what a call can write *)
(* ===================================================================== *)

(** The one row a call may add.  [Player_save] is reached only for a name
    and an email that no row has; [players.add] is reached only for a game
    that exists and inserts only a missing row. *)
Inductive write (st : store) : store -> Prop :=
| write_nothing : write st st
| write_player name email now :
    Player_get_name st name = None ->
    Player_get_email st email = None ->
    write st (mkStore (players st ++ [Player.mk (player_seq st) name email now now])
                      (games st) (game_players st) (player_seq st + 1) (game_seq st))
| write_game name now :
    write st (mkStore (players st) (games st ++ [Game.mk (game_seq st) name now now])
                      (game_players st) (player_seq st) (game_seq st + 1))
| write_member game player_id :
    Game_get_pk st game <> None ->
    ~ In player_id (players_pks st game) ->
    write st (mkStore (players st) (games st) (game_players st ++ [(game, player_id)])
                      (player_seq st) (game_seq st)).

(** No two players share a name or an email. *)
Definition unique_players (st : store) : Prop :=
  NoDup (map Player.name (players st)) /\ NoDup (map Player.email (players st)).

(** Keys do not repeat and all lie below the sequence that hands them out. *)
Definition keys_ok (st : store) : Prop :=
  NoDup (map Player.pk (players st)) /\
  (forall p, In p (players st) -> Player.pk p < player_seq st) /\
  NoDup (map Game.pk (games st)) /\
  (forall g, In g (games st) -> Game.pk g < game_seq st).

(** Every membership row joins a game and a player that exist. *)
Definition references_ok (st : store) : Prop :=
  forall game player_id,
    In (game, player_id) (game_players st) ->
    Game_get_pk st game <> None /\ Player_get_pk st player_id <> None.

Definition consistent (st : store) : Prop :=
  unique_players st /\ keys_ok st /\ references_ok st /\ members_ok st.

Lemma find_app {A} (f : A -> bool) (l l' : list A) :
  find f (l ++ l') = match find f l with
                     | Some x => Some x
                     | None => find f l'
                     end.
Proof.
  induction l as [|a l IH]; simpl; [reflexivity|].
  destruct (f a); [reflexivity | exact IH].
Qed.

Lemma eqb_str_refl (a : pystr) : eqb_str a a = true.
Proof. apply eqb_str_eq. reflexivity. Qed.

Lemma find_none_not_in {A B} (f : A -> B) (test : B -> B -> bool) (l : list A) (b : B) :
  (forall x y, test x y = true <-> x = y) ->
  find (fun a => test (f a) b) l = None -> ~ In b (map f l).
Proof.
  intros T F H. apply in_map_iff in H. destruct H as [a [E Ha]].
  rewrite find_none_iff in F. specialize (F a Ha). simpl in F.
  rewrite E in F. assert (test b b = true) by (apply T; reflexivity). congruence.
Qed.

Lemma write_endpoint b Authorize now st : write st (snd (endpoint b Authorize now st)).
Proof.
  destruct b as [player | game | request_data]; simpl.
  - unfold create_new_player, Player_save.
    destruct (jwt_required Authorize); simpl; [|constructor].
    destruct (Player_get_name st (CreatePlayerItem.name player)) eqn:N; [constructor|].
    destruct (Player_get_email st (CreatePlayerItem.email player)) eqn:E; [constructor|].
    simpl. apply write_player; assumption.
  - unfold create_new_game. destruct (jwt_required Authorize); simpl; constructor.
  - unfold add_player_to_game.
    destruct (jwt_required Authorize); simpl; [|constructor].
    destruct (Game_get_pk st (AddingPlayerInGame.game_id request_data)) as [game|] eqn:G;
      simpl; [|constructor].
    unfold players_add. rewrite (Game_get_pk_pk _ _ _ G).
    destruct (existsb _ _) eqn:X; [constructor|].
    apply write_member; [congruence|].
    rewrite <- existsb_Zeqb_In, X. discriminate.
Qed.

Lemma write_handle req Authorize now st : write st (snd (handle req Authorize now st)).
Proof.
  unfold handle. destruct (parse st req); simpl; [constructor | apply write_endpoint].
Qed.

Lemma write_advance st t : write st (snd (advance st t)).
Proof.
  destruct t as [c | b Authorize now | r]; simpl.
  - destruct (parse st (call_request c)); constructor.
  - pose proof (write_endpoint b Authorize now st) as W.
    destruct (endpoint b Authorize now st); exact W.
  - constructor.
Qed.

Lemma write_unique_players st st' : write st st' -> unique_players st -> unique_players st'.
Proof.
  intros W [Hn He]. destruct W as [|name email now N E| |]; try (split; assumption).
  unfold unique_players; simpl. rewrite !map_app; simpl. split; apply NoDup_snoc; auto.
  - apply (find_none_not_in Player.name eqb_str _ _ eqb_str_eq N).
  - apply (find_none_not_in Player.email eqb_str _ _ eqb_str_eq E).
Qed.

Lemma write_keys_ok st st' : write st st' -> keys_ok st -> keys_ok st'.
Proof.
  intros W (Hp & Bp & Hg & Bg).
  destruct W as [|name email now N E|name now|]; unfold keys_ok; simpl;
    try (repeat split; assumption).
  - rewrite map_app; simpl. repeat split; try assumption.
    + apply NoDup_snoc; [assumption|]. intros H. apply in_map_iff in H.
      destruct H as [p [E1 Hin]]. specialize (Bp p Hin). lia.
    + intros p Hin. apply in_app_iff in Hin. destruct Hin as [Hin|[<-|[]]].
      * specialize (Bp p Hin). lia.
      * simpl. lia.
  - rewrite map_app; simpl. repeat split; try assumption.
    + apply NoDup_snoc; [assumption|]. intros H. apply in_map_iff in H.
      destruct H as [g [E1 Hin]]. specialize (Bg g Hin). lia.
    + intros g Hin. apply in_app_iff in Hin. destruct Hin as [Hin|[<-|[]]].
      * specialize (Bg g Hin). lia.
      * simpl. lia.
Qed.

(** Rows that exist are still found after a write. *)
Lemma write_lookups st st' :
  write st st' ->
  (forall k, Game_get_pk st k <> None -> Game_get_pk st' k <> None) /\
  (forall k, Player_get_pk st k <> None -> Player_get_pk st' k <> None).
Proof.
  intros W. destruct W as [|name email now N E|name now|game pid G M]; split; intros k Hk;
    try exact Hk; unfold Game_get_pk, Player_get_pk in *; simpl; rewrite find_app.
  - destruct (find _ (players st)); [discriminate | congruence].
  - destruct (find _ (games st)); [discriminate | congruence].
Qed.

(** A membership row that a call adds joins rows that were there. *)
Lemma handle_new_row req Authorize now st game player_id :
  In (game, player_id) (game_players (snd (handle req Authorize now st))) ->
  In (game, player_id) (game_players st) \/
  (Game_get_pk st game <> None /\ Player_get_pk st player_id <> None).
Proof.
  destruct req as [name email | name | game_id pid].
  - unfold handle; simpl. destruct (parse_CreatePlayerItem st name email); simpl; auto.
    rewrite create_new_player_rows. auto.
  - unfold handle; simpl. rewrite create_new_game_rows. auto.
  - rewrite handle_add.
    destruct (parse_AddingPlayerInGame st game_id pid) as [errs|d] eqn:P; simpl; auto.
    rewrite (add_player_to_game_accepted _ _ _ _ _ P).
    destruct (jwt_required Authorize); simpl; auto.
    rewrite in_app_iff. intros [H|[H|[]]]; auto.
    injection H as <- <-. right.
    apply parse_AddingPlayerInGame_inr in P. tauto.
Qed.

Lemma handle_references_ok req Authorize now st :
  references_ok st -> references_ok (snd (handle req Authorize now st)).
Proof.
  intros R game player_id H.
  destruct (write_lookups _ _ (write_handle req Authorize now st)) as [LG LP].
  apply handle_new_row in H. destruct H as [H|[HG HP]].
  - destruct (R _ _ H). auto.
  - auto.
Qed.

Lemma handle_consistent req Authorize now st :
  consistent st -> consistent (snd (handle req Authorize now st)).
Proof.
  intros (U & K & R & M). split; [|split; [|split]].
  - eapply write_unique_players; [apply write_handle | exact U].
  - eapply write_keys_ok; [apply write_handle | exact K].
  - apply handle_references_ok; exact R.
  - apply handle_members_ok; exact M.
Qed.

Lemma stores_invariant (P : store -> Prop) :
  (forall req Authorize now st, P st -> P (snd (handle req Authorize now st))) ->
  forall calls st, P st -> Forall P (stores st calls).
Proof.
  intros Step calls. induction calls as [|c rest IH]; intros st H; simpl.
  - constructor.
  - assert (H1 : P (snd (serve st c))) by (apply Step; exact H).
    constructor; [exact H1 | apply IH; exact H1].
Qed.

Lemma run_invariant (P : store -> Prop) :
  (forall req Authorize now st, P st -> P (snd (handle req Authorize now st))) ->
  forall calls st, P st -> P (snd (run st calls)).
Proof.
  intros Step calls. induction calls as [|c rest IH]; intros st H; simpl.
  - exact H.
  - pose proof (Step (call_request c) (call_credential c) (call_now c) st H) as H1.
    fold (serve st c) in H1. destruct (serve st c) as [r st1]. simpl in H1.
    specialize (IH st1 H1). destruct (run st1 rest). exact IH.
Qed.

Lemma consistent_empty_store : consistent empty_store.
Proof.
  split; [|split; [|split]].
  - split; constructor.
  - repeat split; simpl; try constructor; contradiction.
  - intros game player_id [].
  - intros g. split; [discriminate | constructor].
Qed.

(* ===================================================================== *)
(** ** When a call succeeds *)
(* ===================================================================== *)

Lemma name_field_Return st name v :
  and_then (max_length 54 name) (validate_name st) = Return v <->
  v = name /\ len name <= 54 /\ issubset name allowed_chars = true /\
  Player_get_name st name = None.
Proof.
  unfold max_length, validate_name.
  destruct (54 <? len name) eqn:L; simpl.
  - apply Z.ltb_lt in L. split; [discriminate | lia].
  - apply Z.ltb_ge in L.
    destruct (issubset name allowed_chars); simpl;
      [|split; [discriminate | intros (_ & _ & X & _); discriminate]].
    destruct (Player_get_name st name);
      [split; [discriminate | intros (_ & _ & _ & X); discriminate]|].
    split; [intros E; injection E as <-; auto | intros (-> & _); reflexivity].
Qed.

Lemma email_field_Return st email v :
  and_then (max_length 54 email) (validate_email st) = Return v <->
  v = email /\ len email <= 54 /\ re_match_anchored pattern email = true /\
  Player_get_email st email = None.
Proof.
  unfold max_length, validate_email.
  destruct (54 <? len email) eqn:L; simpl.
  - apply Z.ltb_lt in L. split; [discriminate | lia].
  - apply Z.ltb_ge in L.
    destruct (re_match_anchored pattern email); simpl;
      [|split; [discriminate | intros (_ & _ & X & _); discriminate]].
    destruct (Player_get_email st email);
      [split; [discriminate | intros (_ & _ & _ & X); discriminate]|].
    split; [intros E; injection E as <-; auto | intros (-> & _); reflexivity].
Qed.

(** The schema of [/new_player] accepts a body exactly when both fields
    pass, and then hands it on unchanged. *)
Lemma parse_CreatePlayerItem_inr st name email player :
  parse_CreatePlayerItem st name email = inr player <->
  player = CreatePlayerItem.mk name email /\
  (len name <= 54 /\ issubset name allowed_chars = true /\ Player_get_name st name = None) /\
  (len email <= 54 /\ re_match_anchored pattern email = true /\
   Player_get_email st email = None).
Proof.
  unfold parse_CreatePlayerItem.
  pose proof (name_field_Return st name) as HN.
  pose proof (email_field_Return st email) as HE.
  destruct (and_then (max_length 54 name) (validate_name st)) as [n|];
    destruct (and_then (max_length 54 email) (validate_email st)) as [e|].
  - destruct (proj1 (HN n) eq_refl) as (-> & Cn). destruct (proj1 (HE e) eq_refl) as (-> & Ce).
    split; [intros E; injection E as <-; auto | intros (-> & _); reflexivity].
  - split; [discriminate|]. intros (_ & _ & Ce).
    assert (X : @ValueError pystr r = Return email) by (apply HE; auto). discriminate.
  - split; [discriminate|]. intros (_ & Cn & _).
    assert (X : @ValueError pystr r = Return name) by (apply HN; auto). discriminate.
  - split; [discriminate|]. intros (_ & Cn & _).
    assert (X : @ValueError pystr r = Return name) by (apply HN; auto). discriminate.
Qed.

Lemma handle_new_player st name email Authorize now :
  handle (NewPlayer name email) Authorize now st =
  match parse_CreatePlayerItem st name email with
  | inl errs => (BadRequest errs, st)
  | inr player => create_new_player player Authorize now st
  end.
Proof.
  unfold handle; simpl. destruct (parse_CreatePlayerItem st name email); reflexivity.
Qed.

(** The endpoint on an accepted body. *)
Lemma create_new_player_accepted st name email Authorize now :
  Player_get_name st name = None ->
  Player_get_email st email = None ->
  create_new_player (CreatePlayerItem.mk name email) Authorize now st =
  if jwt_required Authorize
  then (Success (player_seq st),
        mkStore (players st ++ [Player.mk (player_seq st) name email now now])
                (games st) (game_players st) (player_seq st + 1) (game_seq st))
  else (Unauthenticated, st).
Proof.
  intros N E. unfold create_new_player, Player_save; simpl. rewrite N, E.
  destruct (jwt_required Authorize); reflexivity.
Qed.

(** X1: a call served alone never ends in an unhandled [IntegrityError]
    or [DoesNotExist]: whatever the request, the credential and the store,
    the checks of the schema have ruled both out before the endpoint
    writes. *)
Theorem served_alone_never_fails req Authorize now st e :
  fst (handle req Authorize now st) <> InternalServerError e.
Proof.
  destruct req as [name email | name | game_id player_id].
  - rewrite handle_new_player.
    destruct (parse_CreatePlayerItem st name email) as [errs|player] eqn:P;
      [discriminate|].
    apply parse_CreatePlayerItem_inr in P. destruct P as (-> & (_ & _ & N) & (_ & _ & E)).
    rewrite (create_new_player_accepted _ _ _ _ _ N E).
    destruct (jwt_required Authorize); discriminate.
  - unfold handle; simpl. unfold create_new_game.
    destruct (jwt_required Authorize); discriminate.
  - rewrite handle_add.
    destruct (parse_AddingPlayerInGame st game_id player_id) as [errs|d] eqn:P;
      [discriminate|].
    rewrite (add_player_to_game_accepted _ _ _ _ _ P).
    destruct (jwt_required Authorize); discriminate.
Qed.

(** X2: [/new_player] succeeds exactly when the token is valid, the name
    has at most 54 characters, all in [0-9a-f], and no player has it, and
    the email has at most 54 characters, matches the pattern, and no
    player has it; the answer is then the next key of the sequence. *)
Theorem create_player_succeeds_iff st name email Authorize now id :
  fst (handle (NewPlayer name email) Authorize now st) = Success id <->
  jwt_required Authorize = true /\
  len name <= 54 /\ Forall hex_digit name /\
  (forall p, In p (players st) -> Player.name p <> name) /\
  len email <= 54 /\ re_match_anchored pattern email = true /\
  (forall p, In p (players st) -> Player.email p <> email) /\
  id = player_seq st.
Proof.
  assert (NN : Player_get_name st name = None <->
               forall p, In p (players st) -> Player.name p <> name).
  { unfold Player_get_name. rewrite find_none_iff. split; intros H p Hp.
    - intros E. apply eqb_str_eq in E. specialize (H p Hp). congruence.
    - destruct (eqb_str (Player.name p) name) eqn:E; [|reflexivity].
      apply eqb_str_eq in E. destruct (H p Hp E). }
  assert (EE : Player_get_email st email = None <->
               forall p, In p (players st) -> Player.email p <> email).
  { unfold Player_get_email. rewrite find_none_iff. split; intros H p Hp.
    - intros E. apply eqb_str_eq in E. specialize (H p Hp). congruence.
    - destruct (eqb_str (Player.email p) email) eqn:E; [|reflexivity].
      apply eqb_str_eq in E. destruct (H p Hp E). }
  rewrite <- NN, <- EE, <- issubset_allowed_chars. rewrite handle_new_player.
  destruct (parse_CreatePlayerItem st name email) as [errs|player] eqn:P.
  - split; [discriminate|]. intros (_ & Ln & Cn & N & Le & Ce & E & _).
    assert (X : parse_CreatePlayerItem st name email = inr (CreatePlayerItem.mk name email))
      by (apply parse_CreatePlayerItem_inr; auto 10).
    congruence.
  - apply parse_CreatePlayerItem_inr in P.
    destruct P as (-> & (Ln & Cn & N) & (Le & Ce & E)).
    rewrite (create_new_player_accepted _ _ _ _ _ N E).
    destruct (jwt_required Authorize); simpl.
    + split; [intros X; injection X as <-; auto 10 | intros (_&_&_&_&_&_&_& ->); reflexivity].
    + split; [discriminate | intros (X & _); discriminate].
Qed.

(** X3: [/add_player_to_game] succeeds exactly when the token is valid,
    the player and the game exist, the game has at most 4 members and the
    player is not one of them; the answer is then the game's key. *)
Theorem add_player_succeeds_iff st game_id player_id Authorize now id :
  fst (handle (AddPlayerToGame game_id player_id) Authorize now st) = Success id <->
  jwt_required Authorize = true /\
  Player_get_pk st player_id <> None /\
  Game_get_pk st game_id <> None /\
  players_count st game_id <= 4 /\
  ~ In player_id (players_pks st game_id) /\
  id = game_id.
Proof.
  rewrite handle_add.
  destruct (parse_AddingPlayerInGame st game_id player_id) as [errs|d] eqn:P.
  - split; [discriminate|]. intros (_ & HP & HG & C & M & _). exfalso.
    rewrite parse_AddingPlayerInGame_spec in P. unfold root_errors in P.
    destruct (Player_get_pk st player_id); [|congruence].
    destruct (Game_get_pk st game_id); [|congruence].
    replace (players_count st game_id >? 4) with false in P
      by (symmetry; rewrite Z.gtb_ltb; apply Z.ltb_ge; exact C).
    simpl in P. destruct (existsb (Z.eqb player_id) (players_pks st game_id)) eqn:X;
      [|discriminate].
    apply existsb_Zeqb_In in X. contradiction.
  - rewrite (add_player_to_game_accepted _ _ _ _ _ P).
    apply parse_AddingPlayerInGame_inr in P. destruct P as (_ & HP & HG & C & M).
    destruct (jwt_required Authorize); simpl.
    + split; [intros X; injection X as <-; auto 10 | intros (_&_&_&_&_& ->); reflexivity].
    + split; [discriminate | intros (X & _); discriminate].
Qed.

Lemma Game_get_pk_in st k : Game_get_pk st k <> None -> In k (map Game.pk (games st)).
Proof.
  unfold Game_get_pk. destruct (find _ (games st)) as [g|] eqn:F; [|congruence].
  intros _. apply find_some in F. destruct F as [Hin E]. apply Z.eqb_eq in E.
  apply in_map_iff. exists g. auto.
Qed.

Lemma find_fresh_key {A} (pk : A -> Z) (l : list A) (k : Z) :
  (forall x, In x l -> pk x < k) -> find (fun x => pk x =? k) l = None.
Proof.
  intros B. apply find_none_iff. intros x Hx. specialize (B x Hx).
  apply Z.eqb_neq. lia.
Qed.

(** X4: once [/new_game] has succeeded, in a store whose keys lie below
    their sequence and whose membership rows join existing games: the key
    returned was not in use, the game is found under it with the name
    given and the time of the call as both timestamps, it has no members,
    and the players and the memberships are as they were. *)
Theorem created_game_is_found st name Authorize now id :
  fst (handle (NewGame name) Authorize now st) = Success id ->
  keys_ok st ->
  references_ok st ->
  let st' := snd (handle (NewGame name) Authorize now st) in
  id = game_seq st /\
  Game_get_pk st id = None /\
  Game_get_pk st' id = Some (Game.mk id name now now) /\
  players_pks st' id = [] /\
  players st' = players st /\
  game_players st' = game_players st.
Proof.
  unfold handle; simpl. unfold create_new_game.
  destruct (jwt_required Authorize); [|discriminate]. simpl.
  intros E (_ & _ & _ & B) R. injection E as <-.
  split; [reflexivity|]. split; [|split; [|split; [|split; reflexivity]]].
  - apply (find_fresh_key Game.pk _ _ B).
  - unfold Game_get_pk; simpl. rewrite find_app.
    rewrite (find_fresh_key Game.pk _ _ B). simpl. rewrite Z.eqb_refl. reflexivity.
  - unfold players_pks; simpl.
    assert (F : forall rows : list (Z * Z),
               (forall g p, In (g, p) rows -> g <> game_seq st) ->
               filter (fun r => fst r =? game_seq st) rows = []).
    { induction rows as [|[g p] rows IH]; intros H; simpl; [reflexivity|].
      destruct (g =? game_seq st) eqn:E.
      - apply Z.eqb_eq in E. destruct (H g p (or_introl eq_refl) E).
      - apply IH. intros g' p' Hin. apply (H g' p'). now right. }
    rewrite F; [reflexivity|]. intros g p Hin E. subst g.
    destruct (R _ _ Hin) as [G _]. apply Game_get_pk_in in G.
    apply in_map_iff in G. destruct G as [x [Ex Hx]]. specialize (B x Hx). lia.
Qed.

(** X5: once [/new_player] has succeeded for a name and an email, the
    player is found by name, by email and (when keys lie below their
    sequence) by the key returned, with the time of the call as both
    timestamps. *)
Theorem created_player_is_found st name email Authorize now id :
  fst (handle (NewPlayer name email) Authorize now st) = Success id ->
  let st' := snd (handle (NewPlayer name email) Authorize now st) in
  let row := Player.mk id name email now now in
  Player_get_name st' name = Some row /\
  Player_get_email st' email = Some row /\
  (keys_ok st -> Player_get_pk st id = None /\ Player_get_pk st' id = Some row).
Proof.
  rewrite handle_new_player.
  destruct (parse_CreatePlayerItem st name email) as [errs|player] eqn:P; [discriminate|].
  apply parse_CreatePlayerItem_inr in P. destruct P as (-> & (_ & _ & N) & (_ & _ & E)).
  rewrite (create_new_player_accepted _ _ _ _ _ N E).
  destruct (jwt_required Authorize); [|discriminate]. simpl.
  intros X. injection X as <-.
  unfold Player_get_name, Player_get_email, Player_get_pk in *; simpl.
  rewrite !find_app, N, E. simpl. rewrite !eqb_str_refl. repeat split.
  - apply find_fresh_key. apply H.
  - rewrite (find_fresh_key Player.pk _ _ (proj1 (proj2 H))). rewrite Z.eqb_refl. reflexivity.
Qed.

(** A name and an email that are taken stay taken after a write. *)
Lemma write_taken st st' name email :
  write st st' ->
  Player_get_name st name <> None /\ Player_get_email st email <> None ->
  Player_get_name st' name <> None /\ Player_get_email st' email <> None.
Proof.
  intros W [Hn He]. destruct W as [|n e t N E|n t|g p G M]; try (split; assumption).
  unfold Player_get_name, Player_get_email in *; simpl. rewrite !find_app. split.
  - destruct (find (fun p => eqb_str (Player.name p) name) (players st));
      [discriminate | destruct (Hn eq_refl)].
  - destruct (find (fun p => eqb_str (Player.email p) email) (players st));
      [discriminate | destruct (He eq_refl)].
Qed.

(** What a call of [/new_player] gets for a name or an email that is taken. *)
Lemma taken_is_refused st name email :
  len name <= 54 -> issubset name allowed_chars = true ->
  len email <= 54 -> re_match_anchored pattern email = true ->
  Player_get_name st name <> None /\ Player_get_email st email <> None ->
  (forall email2 h now2,
      snd (respond h (NewPlayer name email2) now2 st) = st /\
      (AuthJWT h <> None ->
       exists errs,
         fst (respond h (NewPlayer name email2) now2 st) = Reply (BadRequest errs) /\
         In DuplicateName errs)) /\
  (forall name2 h now2,
      snd (respond h (NewPlayer name2 email) now2 st) = st /\
      (AuthJWT h <> None ->
       exists errs,
         fst (respond h (NewPlayer name2 email) now2 st) = Reply (BadRequest errs) /\
         In DuplicateEmail errs)) /\
  (forall h now2,
      AuthJWT h <> None ->
      respond h (NewPlayer name email) now2 st =
      (Reply (BadRequest [DuplicateName; DuplicateEmail]), st)).
Proof.
  intros Ln Cn Le Ce [Tn Te].
  assert (FN : and_then (max_length 54 name) (validate_name st) = ValueError DuplicateName).
  { rewrite (max_length_ok _ Ln). simpl. unfold validate_name. rewrite Cn. simpl.
    destruct (Player_get_name st name); [reflexivity | congruence]. }
  assert (FE : and_then (max_length 54 email) (validate_email st) = ValueError DuplicateEmail).
  { rewrite (max_length_ok _ Le). simpl. unfold validate_email. rewrite Ce. simpl.
    destruct (Player_get_email st email); [reflexivity | congruence]. }
  split; [|split].
  - intros email2 h now2. unfold respond, validate. simpl.
    unfold parse_CreatePlayerItem. rewrite FN.
    destruct (AuthJWT h); simpl; split; try reflexivity; try congruence.
    intros _. eexists. split; [reflexivity | now left].
  - intros name2 h now2. unfold respond, validate. simpl.
    unfold parse_CreatePlayerItem. rewrite FE.
    destruct (AuthJWT h); simpl.
    + destruct (and_then (max_length 54 name2) (validate_name st)); simpl;
        (split; [reflexivity|]); intros _; eexists; (split; [reflexivity | simpl; auto]).
    + split; [reflexivity | congruence].
  - intros h now2 A. unfold respond, validate. simpl.
    unfold parse_CreatePlayerItem. rewrite FN, FE.
    destruct (AuthJWT h); [reflexivity | congruence].
Qed.

(** X6: once [/new_player] has succeeded for a name and an email, that name
    and that email stay taken whatever calls are served afterwards: in the
    store right after the creation and in every store a later history
    goes through, a call with that name is refused with DuplicateName
    among the reasons, a call with that email with DuplicateEmail, and the
    same call again with exactly these two reasons (a call with a malformed
    header is rejected before that); none of them writes. *)
Theorem second_creation_refused st name email Authorize now id (calls : list call) :
  fst (handle (NewPlayer name email) Authorize now st) = Success id ->
  let st1 := snd (handle (NewPlayer name email) Authorize now st) in
  Forall
    (fun st' =>
       (forall email2 h now2,
           snd (respond h (NewPlayer name email2) now2 st') = st' /\
           (AuthJWT h <> None ->
            exists errs,
              fst (respond h (NewPlayer name email2) now2 st') = Reply (BadRequest errs) /\
              In DuplicateName errs)) /\
       (forall name2 h now2,
           snd (respond h (NewPlayer name2 email) now2 st') = st' /\
           (AuthJWT h <> None ->
            exists errs,
              fst (respond h (NewPlayer name2 email) now2 st') = Reply (BadRequest errs) /\
              In DuplicateEmail errs)) /\
       (forall h now2,
           AuthJWT h <> None ->
           respond h (NewPlayer name email) now2 st' =
           (Reply (BadRequest [DuplicateName; DuplicateEmail]), st')))
    (st1 :: stores st1 calls).
Proof.
  rewrite handle_new_player.
  destruct (parse_CreatePlayerItem st name email) as [errs|player] eqn:P; [discriminate|].
  apply parse_CreatePlayerItem_inr in P.
  destruct P as (-> & (Ln & Cn & N) & (Le & Ce & E)).
  rewrite (create_new_player_accepted _ _ _ _ _ N E).
  destruct (jwt_required Authorize); [|discriminate]. simpl. intros _.
  set (st1 := mkStore _ _ _ _ _).
  assert (T1 : Player_get_name st1 name <> None /\ Player_get_email st1 email <> None).
  { unfold Player_get_name, Player_get_email in *. simpl. rewrite !find_app, N, E. simpl.
    rewrite !eqb_str_refl. split; discriminate. }
  assert (T : Forall (fun st' => Player_get_name st' name <> None /\
                                 Player_get_email st' email <> None)
                     (st1 :: stores st1 calls)).
  { constructor; [exact T1|].
    apply (stores_invariant
             (fun st' => Player_get_name st' name <> None /\
                         Player_get_email st' email <> None)); [|exact T1].
    intros req a t st0. apply write_taken, write_handle. }
  eapply Forall_impl; [|exact T].
  intros st'. apply taken_is_refused; assumption.
Qed.

(** X7: a call adds at most one row, to one table, after the rows that
    were there: no row is removed or changed, and the two sequences never
    go back. *)
Theorem calls_only_append req Authorize now st :
  let st' := snd (handle req Authorize now st) in
  exists new_players new_games new_rows,
    players st' = players st ++ new_players /\
    games st' = games st ++ new_games /\
    game_players st' = game_players st ++ new_rows /\
    (List.length new_players + List.length new_games + List.length new_rows <= 1)%nat /\
    player_seq st <= player_seq st' /\
    game_seq st <= game_seq st'.
Proof.
  simpl. destruct (write_handle req Authorize now st) as [|name email t N E|name t|g p G M].
  - exists [], [], []. rewrite !app_nil_r. simpl. repeat split; lia.
  - exists [Player.mk (player_seq st) name email t t], [], [].
    rewrite !app_nil_r. simpl. repeat split; lia.
  - exists [], [Game.mk (game_seq st) name t t], [].
    rewrite !app_nil_r. simpl. repeat split; lia.
  - exists [], [], [(g, p)]. rewrite !app_nil_r. simpl. repeat split; lia.
Qed.

Lemma handle_without_token req Authorize now st :
  jwt_required Authorize = false -> snd (handle req Authorize now st) = st.
Proof.
  intros H. unfold handle. destruct (parse st req); simpl; [reflexivity|].
  rewrite (endpoint_unauthenticated _ _ _ _ H). reflexivity.
Qed.

(** X8: the calls that carry no valid token can be taken out of a history:
    the store at the end is the same. *)
Theorem calls_without_token_can_be_dropped calls st :
  snd (run st (filter (fun c => jwt_required (call_credential c)) calls)) =
  snd (run st calls).
Proof.
  revert st. induction calls as [|c rest IH]; intros st; simpl; [reflexivity|].
  destruct (jwt_required (call_credential c)) eqn:J; simpl.
  - destruct (serve st c) as [r st1]. specialize (IH st1).
    destruct (run st1 (filter _ rest)), (run st1 rest). exact IH.
  - pose proof (handle_without_token (call_request c) _ (call_now c) st J) as H.
    fold (serve st c) in H. destruct (serve st c) as [r st1]. simpl in H. subst st1.
    specialize (IH st). destruct (run st rest). exact IH.
Qed.

(* ===================================================================== *)
(** ** What every history keeps *)
(* ===================================================================== *)

(** X9: along every sequence of calls served one after the other, no two
    players ever share a name or an email, if none did at the start. *)
Theorem players_stay_unique (calls : list call) (st : store) :
  unique_players st -> Forall unique_players (stores st calls).
Proof.
  apply stores_invariant. intros req Authorize now st0.
  apply write_unique_players, write_handle.
Qed.

(** X10: along every sequence of calls served one after the other, the
    keys of players and of games never repeat and stay below the sequence
    that hands them out, if they did at the start. *)
Theorem keys_stay_fresh (calls : list call) (st : store) :
  keys_ok st -> Forall keys_ok (stores st calls).
Proof.
  apply stores_invariant. intros req Authorize now st0.
  apply write_keys_ok, write_handle.
Qed.

(** X11: along every sequence of calls served one after the other, every
    membership row joins a game and a player that exist, if that held at
    the start. *)
Theorem memberships_stay_valid (calls : list call) (st : store) :
  references_ok st -> Forall references_ok (stores st calls).
Proof.
  apply stores_invariant. intros req Authorize now st0. apply handle_references_ok.
Qed.

Lemma write_found st st' :
  write st st' ->
  (forall k p, Player_get_pk st k = Some p -> Player_get_pk st' k = Some p) /\
  (forall k g, Game_get_pk st k = Some g -> Game_get_pk st' k = Some g) /\
  (forall g p, In p (players_pks st g) -> In p (players_pks st' g)).
Proof.
  intros W. destruct W as [|name email now N E|name now|game pid G M];
    repeat split; intros a b Hab; try exact Hab.
  - unfold Player_get_pk in *; simpl. rewrite find_app, Hab. reflexivity.
  - unfold Game_get_pk in *; simpl. rewrite find_app, Hab. reflexivity.
  - rewrite players_pks_append. destruct (game =? a); [|exact Hab].
    apply in_app_iff. now left.
Qed.

(** X18: nothing is ever lost: a player or a game found under a key keeps
    being found there, with the same row (timestamps included), and a
    member of a game stays a member, whatever calls follow. *)
Theorem rows_are_permanent (calls : list call) (st : store) :
  Forall (fun st' =>
            (forall k p, Player_get_pk st k = Some p -> Player_get_pk st' k = Some p) /\
            (forall k g, Game_get_pk st k = Some g -> Game_get_pk st' k = Some g) /\
            (forall g p, In p (players_pks st g) -> In p (players_pks st' g)))
         (stores st calls).
Proof.
  apply (stores_invariant
           (fun st' =>
              (forall k p, Player_get_pk st k = Some p -> Player_get_pk st' k = Some p) /\
              (forall k g, Game_get_pk st k = Some g -> Game_get_pk st' k = Some g) /\
              (forall g p, In p (players_pks st g) -> In p (players_pks st' g)))).
  - intros req Authorize now st0 (HP & HG & HM).
    destruct (write_found _ _ (write_handle req Authorize now st0)) as (FP & FG & FM).
    repeat split; auto.
  - repeat split; auto.
Qed.

Lemma handle_full_game req Authorize now st game :
  players_count st game > 4 ->
  players_pks (snd (handle req Authorize now st)) game = players_pks st game.
Proof.
  intros C. destruct req as [name email | name | game_id player_id].
  - unfold players_pks. unfold handle; simpl.
    destruct (parse_CreatePlayerItem st name email); simpl; [reflexivity|].
    rewrite create_new_player_rows. reflexivity.
  - unfold players_pks. unfold handle; simpl.
    rewrite create_new_game_rows. reflexivity.
  - rewrite handle_add.
    destruct (parse_AddingPlayerInGame st game_id player_id) as [errs|d] eqn:P;
      simpl; [reflexivity|].
    rewrite (add_player_to_game_accepted _ _ _ _ _ P).
    destruct (jwt_required Authorize); simpl; [|reflexivity].
    rewrite players_pks_append.
    destruct (game_id =? game) eqn:E; [|reflexivity].
    apply Z.eqb_eq in E. subst game_id.
    apply parse_AddingPlayerInGame_inr in P. destruct P as (_ & _ & _ & C' & _). lia.
Qed.

(** X19: a game that has 5 members (or more) keeps exactly those members,
    in every store that any sequence of calls served one after the other
    goes through: no later call adds to a full game. *)
Theorem full_game_stays_as_it_is (calls : list call) (st : store) (game : Z) :
  players_count st game > 4 ->
  Forall (fun st' => players_pks st' game = players_pks st game) (stores st calls).
Proof.
  intros C.
  assert (H : Forall (fun st' => players_pks st' game = players_pks st game /\
                                 players_count st' game > 4) (stores st calls)).
  { apply (stores_invariant
             (fun st' => players_pks st' game = players_pks st game /\
                         players_count st' game > 4)); [|auto].
    intros req Authorize now st0 [E C0].
    pose proof (handle_full_game req Authorize now st0 game C0) as F.
    split; [congruence|]. unfold players_count in *. rewrite F. exact C0. }
  eapply Forall_impl; [|exact H]. intros st' [E _]. exact E.
Qed.

(* ===================================================================== *)
(** ** Overlapping calls: what the database still guarantees *)
(* ===================================================================== *)

Lemma write_advance_nth i st pool : write st (snd (advance_nth i st pool)).
Proof.
  revert i. induction pool as [|t rest IH]; intros i.
  - destruct i; constructor.
  - destruct i as [|j]; simpl.
    + pose proof (write_advance st t) as W. destruct (advance st t); exact W.
    + specialize (IH j). destruct (advance_nth j st rest); exact IH.
Qed.

Lemma write_members_nodup st st' :
  write st st' ->
  (forall g, NoDup (players_pks st g)) -> forall g, NoDup (players_pks st' g).
Proof.
  intros W H g. destruct W as [|name email now N E|name now|game pid G M]; try apply H.
  rewrite players_pks_append. destruct (game =? g) eqn:E; [|apply H].
  apply Z.eqb_eq in E. subst g. apply NoDup_snoc; [apply H | exact M].
Qed.

(** X12: however the validations and the endpoints of any requests in
    flight are interleaved, the unique columns and the keys hold: no two
    players share a name, an email or a key, no two games share a key, and
    no game lists a player twice. *)
Theorem overlap_keeps_rows_unique (schedule : list nat) (pool : list task) (st : store) :
  unique_players st ->
  keys_ok st ->
  (forall g, NoDup (players_pks st g)) ->
  let st' := snd (interleave schedule st pool) in
  unique_players st' /\ keys_ok st' /\ (forall g, NoDup (players_pks st' g)).
Proof.
  revert pool st. induction schedule as [|i later IH]; intros pool st U K M; simpl.
  - auto.
  - pose proof (write_advance_nth i st pool) as W.
    destruct (advance_nth i st pool) as [pool' st1]. simpl in W.
    apply IH.
    + eapply write_unique_players; eassumption.
    + eapply write_keys_ok; eassumption.
    + eapply write_members_nodup; eassumption.
Qed.


(* ===================================================================== *)
(** ** Reading errors, listing a game *)
(* ===================================================================== *)

(** The body [validation_exception_handler] builds: one [status]/[text]
    pair per error, appended in turn. *)
Definition modified_details (details : list reason) : list (string * string) :=
  fold_left (fun acc error => acc ++ [("error"%string, msg error)]) details [].

(** [obj.players.all()]: the players the membership rows of the game join. *)
Definition players_all (st : store) (game : Z) : list Player.t :=
  flat_map (fun k => match Player_get_pk st k with
                     | Some p => [p]
                     | None => []
                     end)
           (players_pks st game).

(** [GameAdmin.players_]: the column of the admin list that shows the names
    of the players of a game. *)
Definition players_ (st : store) (game : Z) : list pystr :=
  map Player.name (players_all st game).


Lemma fold_left_snoc {A B} (f : A -> B) (l : list A) (acc : list B) :
  fold_left (fun acc x => acc ++ [f x]) l acc = acc ++ map f l.
Proof.
  revert acc. induction l as [|a l IH]; intros acc; simpl.
  - symmetry. apply app_nil_r.
  - rewrite IH, <- app_assoc. reflexivity.
Qed.

(** X15: the body of a 400 response has one entry per validation error,
    in the order the errors were raised, each with the status [error] and
    the text of its reason; and the texts tell the reasons apart, so the
    list of reasons can be read back from the body. *)
Theorem modified_details_faithful (details : list reason) :
  modified_details details = map (fun e => ("error"%string, msg e)) details /\
  List.length (modified_details details) = List.length details /\
  (forall other, modified_details other = modified_details details -> other = details).
Proof.
  assert (E : forall d, modified_details d = map (fun e => ("error"%string, msg e)) d).
  { intros d. unfold modified_details.
    rewrite (fold_left_snoc (fun e => ("error"%string, msg e))). reflexivity. }
  split; [apply E|]. split; [rewrite E; apply length_map|].
  intros other. rewrite !E. revert other.
  induction details as [|e rest IH]; intros [|o other]; simpl; try discriminate.
  - reflexivity.
  - intros H. injection H as H1 H2. apply msg_injective in H1. subst o.
    f_equal. apply IH. exact H2.
Qed.

Lemma Player_get_pk_some st k p :
  Player_get_pk st k = Some p -> In p (players st) /\ Player.pk p = k.
Proof.
  unfold Player_get_pk. intros F. apply find_some in F. destruct F as [H E].
  apply Z.eqb_eq in E. auto.
Qed.

Lemma NoDup_map_injective {A B} (f : A -> B) (l : list A) (x y : A) :
  NoDup (map f l) -> In x l -> In y l -> f x = f y -> x = y.
Proof.
  induction l as [|a l IH]; simpl; [contradiction|].
  intros N Hx Hy E. inversion N as [|b m Hn Nl]; subst.
  destruct Hx as [<-|Hx], Hy as [<-|Hy].
  - reflexivity.
  - exfalso. apply Hn. rewrite E. apply in_map. exact Hy.
  - exfalso. apply Hn. rewrite <- E. apply in_map. exact Hx.
  - apply IH; assumption.
Qed.

(** The players behind a list of keys that all exist and do not repeat. *)
Lemma players_of_keys st (ks : list Z) :
  (forall k, In k ks -> Player_get_pk st k <> None) ->
  NoDup ks ->
  NoDup (map Player.name (players st)) ->
  let ps := flat_map (fun k => match Player_get_pk st k with
                               | Some p => [p]
                               | None => []
                               end) ks in
  map Player.pk ps = ks /\ (forall p, In p ps -> In p (players st)) /\
  NoDup (map Player.name ps).
Proof.
  intros E N U. induction ks as [|k ks IH]; simpl.
  - repeat split; [contradiction | constructor].
  - inversion N as [|k' ks' Hk Nks]; subst.
    destruct IH as (Pk & Sub & Nn); [intros x Hx; apply E; now right | exact Nks |].
    destruct (Player_get_pk st k) as [p|] eqn:F; [|destruct (E k (or_introl eq_refl) F)].
    apply Player_get_pk_some in F. destruct F as [Hp Ek]. simpl.
    split; [rewrite Pk, Ek; reflexivity|]. split.
    + intros q [<-|Hq]; [exact Hp | apply Sub; exact Hq].
    + constructor; [|exact Nn]. intros H. apply in_map_iff in H.
      destruct H as [q [En Hq]].
      assert (q = p) by (apply (NoDup_map_injective Player.name (players st)); auto).
      subst q. apply Hk. rewrite <- Pk, <- Ek. apply in_map. exact Hq.
Qed.

(** X16: in a store that keeps its constraints, the admin column of a game
    shows one name per member, so at most 5 names, and no name twice; the
    names are those of the players whose keys are members. *)
Theorem admin_lists_the_members (st : store) (game : Z) :
  consistent st ->
  Z.of_nat (List.length (players_ st game)) = players_count st game /\
  (List.length (players_ st game) <= 5)%nat /\
  NoDup (players_ st game) /\
  map Player.pk (players_all st game) = players_pks st game.
Proof.
  intros ((Un & _) & _ & R & M). destruct (M game) as [C Nd].
  assert (E : forall k, In k (players_pks st game) -> Player_get_pk st k <> None).
  { intros k Hk. unfold players_pks in Hk. apply in_map_iff in Hk.
    destruct Hk as [[g p] [Ep Hin]]. simpl in Ep. subst p.
    apply filter_In in Hin. destruct Hin as [Hin _]. apply (R _ _ Hin). }
  destruct (players_of_keys st (players_pks st game) E Nd Un) as (Pk & _ & Nn).
  fold (players_all st game) in Pk, Nn.
  assert (L : List.length (players_ st game) = List.length (players_pks st game)).
  { unfold players_. rewrite length_map, <- Pk, length_map. reflexivity. }
  unfold players_count in *. repeat split.
  - rewrite L. reflexivity.
  - rewrite L. lia.
  - exact Nn.
  - exact Pk.
Qed.

(* ===================================================================== *)
(** ** Serving alone is validating, then running the endpoint *)
(* ===================================================================== *)

Lemma interleave_alone st c :
  interleave [0%nat; 0%nat] st [Received c] =
  ([Responded (fst (serve st c))], snd (serve st c)).
Proof.
  unfold serve, handle. simpl.
  destruct (parse st (call_request c)) as [errs|b]; simpl; [reflexivity|].
  destruct (endpoint b (call_credential c) (call_now c) st); reflexivity.
Qed.

End Service.

(* ===================================================================== *)
(** ** Examples *)
(* ===================================================================== *)

(** The token [/login] issues for the user [test]. *)
Definition tester : credential := ValidToken (str "test").

Definition add (game_id player_id now : Z) : call :=
  mkCall (AddPlayerToGame game_id player_id) tester now.

(** Six players and a game, created at times 1 to 7. *)
Definition registrations : list call :=
  [ mkCall (NewPlayer (str "a1") (str "a1@x.io")) tester 1;
    mkCall (NewPlayer (str "a2") (str "a2@x.io")) tester 2;
    mkCall (NewPlayer (str "a3") (str "a3@x.io")) tester 3;
    mkCall (NewPlayer (str "a4") (str "a4@x.io")) tester 4;
    mkCall (NewPlayer (str "a5") (str "a5@x.io")) tester 5;
    mkCall (NewPlayer (str "a6") (str "a6@x.io")) tester 6;
    mkCall (NewGame (str "Cup")) tester 7 ].

Definition registered : store := snd (run ascii_only empty_store registrations).

(** The game with its first four members, then with five. *)
Definition four_members : store :=
  snd (run ascii_only registered [add 1 1 8; add 1 2 9; add 1 3 10; add 1 4 11]).

Definition five_members : store :=
  snd (serve ascii_only four_members (add 1 5 12)).

(** Two calls of [/new_player] with the same name. *)
Definition same_name : list call :=
  [ mkCall (NewPlayer (str "deadbeef") (str "a@b.com")) tester 1;
    mkCall (NewPlayer (str "deadbeef") (str "c@d.com")) tester 2 ].

Example scenario_of_the_interface :
  fst (run ascii_only empty_store
         [ mkCall (NewPlayer (str "deadbeef") (str "a@b.com")) tester 1;
           mkCall (NewPlayer (str "deadbeef") (str "c@d.com")) tester 2;
           mkCall (NewGame (str "Cup")) tester 3;
           add 1 1 4;
           add 1 1 5 ]) =
  [Success 1; BadRequest [DuplicateName]; Success 1; Success 1; BadRequest [AlreadyMember]].
Proof. vm_compute. reflexivity. Qed.

(** A key beyond 64 bits ends the request with the uncaught error of the
    lookup, with or without a token; nothing is written. *)
Example key_out_of_range :
  respond ascii_only NoHeader (AddPlayerToGame 1 (2 ^ 63)) 8 registered =
    (UncaughtOverflowError, registered) /\
  respond ascii_only (BearerToken (Some (str "test"))) (AddPlayerToGame (- 2 ^ 63 - 1) 1) 8
    registered = (UncaughtOverflowError, registered) /\
  respond ascii_only MalformedHeader (AddPlayerToGame 1 (2 ^ 63)) 8 registered =
    (Reply Unauthenticated, registered).
Proof. vm_compute. repeat split; reflexivity. Qed.

Example pattern_examples :
  map (fun s => re_match_anchored ascii_only pattern (str s))
      ["a@b.com"; "first.last@sub-domain.example.org"; "a@b"; "@b.com"; "a@b.c-m"; "a b@c.de"]%string
  = [true; true; false; false; false; false] /\
  re_match_anchored ascii_only pattern (str "a@b.com" ++ [10%N]) = true.
Proof. vm_compute. split; reflexivity. Qed.

(* ===================================================================== *)
(** ** Overlapping calls *)
(* ===================================================================== *)

(** C8: the check and the write are two steps with nothing held between
    them.  Two calls of [/new_player] with one name, served one after the
    other, give one success and one DuplicateName; when both bodies are
    validated before either endpoint runs, both pass the check and the
    second write is stopped only by the unique column, as an unhandled
    IntegrityError.  Two additions to a game of four members that overlap
    in the same way both succeed and the game ends with six members. *)
Theorem C8_check_then_write_not_atomic :
  map answer (fst (interleave ascii_only [0; 0; 1; 1]%nat empty_store
                     (map Received same_name))) =
    [Some (Success 1); Some (BadRequest [DuplicateName])] /\
  map answer (fst (interleave ascii_only [0; 1; 0; 1]%nat empty_store
                     (map Received same_name))) =
    [Some (Success 1); Some (InternalServerError IntegrityError)] /\
  map answer (fst (interleave ascii_only [0; 1; 0; 1]%nat four_members
                     (map Received [add 1 5 12; add 1 6 13]))) =
    [Some (Success 1); Some (Success 1)] /\
  players_pks (snd (interleave ascii_only [0; 1; 0; 1]%nat four_members
                      (map Received [add 1 5 12; add 1 6 13]))) 1 =
    [1; 2; 3; 4; 5; 6].
Proof. vm_compute. repeat split; reflexivity. Qed.

(* ===================================================================== *)
(** ** The statements at concrete inputs *)
(* ===================================================================== *)

(** C1: without a token, a body the schema refuses is answered with the
    validation reasons, not with Unauthenticated. *)
Lemma C1_validation_reasons_without_token :
  respond ascii_only NoHeader (AddPlayerToGame 1 1) 0 empty_store =
    (Reply (BadRequest [PlayerNotFound; GameNotFound]), empty_store) /\
  respond ascii_only NoHeader (NewPlayer (str "xyz") (str "nobody")) 0 empty_store =
    (Reply (BadRequest [InvalidNameCharset; InvalidEmailFormat]), empty_store) /\
  respond ascii_only (BearerToken None) (NewPlayer (str "a1") (str "b@c.de")) 8 registered =
    (Reply (BadRequest [DuplicateName]), registered) /\
  handle ascii_only (AddPlayerToGame 1 1) NoToken 0 empty_store =
    (BadRequest [PlayerNotFound; GameNotFound], empty_store).
Proof. vm_compute. repeat split; reflexivity. Qed.

Lemma C1_no_token_no_write_at_registered :
  principal NoHeader = None /\
  respond ascii_only NoHeader (AddPlayerToGame 1 9) 8 registered =
    (Reply (BadRequest [PlayerNotFound]), registered) /\
  respond ascii_only (BearerToken None) (AddPlayerToGame 1 1) 8 registered =
    (Reply Unauthenticated, registered) /\
  respond ascii_only MalformedHeader (AddPlayerToGame 1 9) 8 registered =
    (Reply Unauthenticated, registered).
Proof.
  split; [reflexivity|].
  pose proof (C1_no_token_no_write ascii_only NoHeader (AddPlayerToGame 1 9) 8
                registered eq_refl) as (S1 & _ & V1 & _).
  pose proof (C1_no_token_no_write ascii_only (BearerToken None) (AddPlayerToGame 1 1) 8
                registered eq_refl) as (S2 & _ & V2 & _).
  pose proof (C1_no_token_no_write ascii_only MalformedHeader (AddPlayerToGame 1 9) 8
                registered eq_refl) as (S3 & M3 & _).
  split; [|split].
  - rewrite (surjective_pairing (respond _ _ _ _ _)), S1, V1;
      [vm_compute; reflexivity | discriminate | reflexivity].
  - rewrite (surjective_pairing (respond _ _ _ _ _)), S2, V2;
      [vm_compute; reflexivity | discriminate | reflexivity].
  - rewrite (surjective_pairing (respond _ _ _ _ _)), S3, (M3 eq_refl). reflexivity.
Defined.

Lemma C2_at_five_members :
  Player_get_pk five_members 6 <> None /\
  Game_get_pk five_members 1 <> None /\
  membership_errors five_members 1 6 = [GameFull].
Proof.
  assert (HP : Player_get_pk five_members 6 <> None) by (vm_compute; discriminate).
  assert (HG : Game_get_pk five_members 1 <> None) by (vm_compute; discriminate).
  split; [exact HP|]. split; [exact HG|].
  apply (proj1 (C2_game_full_iff_more_than_four five_members 1 6 HP HG)).
  vm_compute. reflexivity.
Defined.

Lemma C3_at_a_full_game :
  members_ok empty_store /\
  Forall members_ok
    (stores ascii_only empty_store
       (registrations ++
        [add 1 1 8; add 1 2 9; add 1 3 10; add 1 4 11; add 1 5 12; add 1 6 13; add 1 5 14])).
Proof.
  assert (H : members_ok empty_store).
  { intros g. split; [vm_compute; discriminate | constructor]. }
  split; [exact H|].
  apply C3_member_sets_stay_within_five. exact H.
Defined.

(** C4: the addition succeeds and the game row still carries the time of
    its creation, 7, not the time of the call, 12. *)
Lemma C4_timestamp_not_refreshed :
  fst (handle ascii_only (AddPlayerToGame 1 5) tester 12 four_members) = Success 1 /\
  players_pks (snd (handle ascii_only (AddPlayerToGame 1 5) tester 12 four_members)) 1 =
    [1; 2; 3; 4; 5] /\
  Game_get_pk (snd (handle ascii_only (AddPlayerToGame 1 5) tester 12 four_members)) 1 =
    Some (Game.mk 1 (str "Cup") 7 7).
Proof. vm_compute. repeat split; reflexivity. Qed.

Lemma C4_at_four_members :
  parse_AddingPlayerInGame four_members 1 5 = inr (AddingPlayerInGame.mk 1 5) /\
  fst (handle ascii_only (AddPlayerToGame 1 5) tester 12 four_members) = Success 1 /\
  games (snd (handle ascii_only (AddPlayerToGame 1 5) tester 12 four_members)) =
    games four_members.
Proof.
  assert (P : parse_AddingPlayerInGame four_members 1 5 = inr (AddingPlayerInGame.mk 1 5))
    by (vm_compute; reflexivity).
  split; [exact P|].
  pose proof (C4_add_appends_and_echoes ascii_only four_members 1 5 _ (str "test") 12 P)
    as (R & _ & _ & G & _).
  split; [exact R | exact G].
Defined.



(** C6: with neither the player nor the game in the store, the first
    failing check is PlayerNotFound and two reasons are reported; with the
    game in the store, the same first failing check gives one reason. *)
Lemma C6_two_reasons_reported :
  first_failing_check empty_store 1 1 = Some PlayerNotFound /\
  membership_errors empty_store 1 1 = [PlayerNotFound; GameNotFound] /\
  first_failing_check registered 1 9 = Some PlayerNotFound /\
  membership_errors registered 1 9 = [PlayerNotFound].
Proof. vm_compute. repeat split; reflexivity. Qed.

Lemma C6_at_registered :
  key_range 1 = true /\
  key_range 9 = true /\
  validate ascii_only registered (AddPlayerToGame 1 9) = Refused [PlayerNotFound] /\
  validate ascii_only registered (AddPlayerToGame 1 1) =
    Accepted (MemberBody (AddingPlayerInGame.mk 1 1)).
Proof.
  split; [reflexivity|]. split; [reflexivity|]. split.
  - rewrite (proj1 (C6_checks_in_order ascii_only registered 1 9 eq_refl eq_refl)).
    vm_compute. reflexivity.
  - rewrite (proj1 (C6_checks_in_order ascii_only registered 1 1 eq_refl eq_refl)).
    vm_compute. reflexivity.
Defined.

Lemma C7_at_five_members :
  validate ascii_only five_members (AddPlayerToGame 1 6) = Refused [GameFull] /\
  respond ascii_only (BearerToken (Some (str "test"))) (AddPlayerToGame 1 6) 13 five_members =
    (Reply (BadRequest [GameFull]), five_members) /\
  players_count
    (snd (respond ascii_only (BearerToken (Some (str "test"))) (AddPlayerToGame 1 6) 13
            five_members)) 1 = 5.
Proof.
  assert (V : validate ascii_only five_members (AddPlayerToGame 1 6) = Refused [GameFull])
    by (vm_compute; reflexivity).
  split; [exact V|].
  pose proof (C7_rejected_calls_write_nothing ascii_only (BearerToken (Some (str "test")))
                (AddPlayerToGame 1 6) 13 five_members) as [A B].
  destruct (A _ V) as (_ & S & R).
  split.
  - rewrite (surjective_pairing (respond _ _ _ _ _)), S, R; [reflexivity | discriminate].
  - refine (proj1 (proj2 (B 1 6 eq_refl _ _))); vm_compute; [discriminate | reflexivity].
Defined.

(** C9: the fifth member is added, and the same call again is refused
    with GameFull, not with AlreadyMember. *)
Lemma C9_second_call_game_full :
  handle ascii_only (AddPlayerToGame 1 5) tester 12 four_members = (Success 1, five_members) /\
  handle ascii_only (AddPlayerToGame 1 5) tester 13 five_members =
    (BadRequest [GameFull], five_members).
Proof. vm_compute. split; reflexivity. Qed.

Lemma C9_at_registered :
  fst (handle ascii_only (AddPlayerToGame 1 1) tester 8 registered) = Success 1 /\
  fst (handle ascii_only (AddPlayerToGame 1 1) tester 9
         (snd (handle ascii_only (AddPlayerToGame 1 1) tester 8 registered))) =
    BadRequest [AlreadyMember].
Proof.
  assert (S : fst (handle ascii_only (AddPlayerToGame 1 1) tester 8 registered) = Success 1)
    by (vm_compute; reflexivity).
  split; [exact S|].
  rewrite (proj2 (C9_second_call_rejected ascii_only registered 1 1 tester 8 tester 9 S)).
  vm_compute. reflexivity.
Defined.

Lemma C10_at_registered :
  Player_get_name registered [] = None /\
  jwt_required tester = true /\
  fst (handle ascii_only (NewPlayer [] (str "e@x.io")) tester 8 registered) = Success 7.
Proof.
  assert (N : Player_get_name registered [] = None) by (vm_compute; reflexivity).
  split; [exact N|]. split; [reflexivity|].
  rewrite (proj2 (proj2 (C10_empty_name_accepted ascii_only registered (str "e@x.io")
                           tester 8)) N); [vm_compute; reflexivity | | reflexivity].
  vm_compute. reflexivity.
Defined.

(* ===================================================================== *)
(** ** The further properties at concrete inputs *)
(* ===================================================================== *)

(** The calls that fill the game: the six registrations, then the first
    five players join. *)
Definition filling : list call :=
  registrations ++ [add 1 1 8; add 1 2 9; add 1 3 10; add 1 4 11; add 1 5 12].

Lemma five_members_consistent : consistent five_members.
Proof.
  apply (handle_consistent ascii_only).
  apply (run_invariant ascii_only consistent (handle_consistent ascii_only)).
  apply (run_invariant ascii_only consistent (handle_consistent ascii_only)).
  apply consistent_empty_store.
Qed.

Lemma registered_consistent : consistent registered.
Proof.
  apply (run_invariant ascii_only consistent (handle_consistent ascii_only)).
  apply consistent_empty_store.
Qed.

Lemma created_game_is_found_at_registered :
  fst (handle ascii_only (NewGame (str "Cup")) tester 8 registered) = Success 2 /\
  keys_ok registered /\
  references_ok registered /\
  Game_get_pk (snd (handle ascii_only (NewGame (str "Cup")) tester 8 registered)) 2 =
    Some (Game.mk 2 (str "Cup") 8 8) /\
  players_pks (snd (handle ascii_only (NewGame (str "Cup")) tester 8 registered)) 2 = [].
Proof.
  assert (S : fst (handle ascii_only (NewGame (str "Cup")) tester 8 registered) = Success 2)
    by (vm_compute; reflexivity).
  destruct registered_consistent as (_ & K & R & _).
  split; [exact S|]. split; [exact K|]. split; [exact R|].
  pose proof (created_game_is_found ascii_only registered (str "Cup") tester 8 2 S K R)
    as (_ & _ & F & M & _).
  split; [exact F | exact M].
Defined.

Lemma created_player_is_found_at_registered :
  fst (handle ascii_only (NewPlayer (str "a7") (str "a7@x.io")) tester 8 registered) =
    Success 7 /\
  Player_get_name
    (snd (handle ascii_only (NewPlayer (str "a7") (str "a7@x.io")) tester 8 registered))
    (str "a7") = Some (Player.mk 7 (str "a7") (str "a7@x.io") 8 8).
Proof.
  assert (S : fst (handle ascii_only (NewPlayer (str "a7") (str "a7@x.io")) tester 8
                     registered) = Success 7) by (vm_compute; reflexivity).
  split; [exact S|].
  exact (proj1 (created_player_is_found ascii_only registered _ _ tester 8 7 S)).
Defined.

Lemma second_creation_refused_at_registered :
  fst (handle ascii_only (NewPlayer (str "a7") (str "a7@x.io")) tester 8 registered) =
    Success 7 /\
  Forall
    (fun st' =>
       forall h now2,
         AuthJWT h <> None ->
         respond ascii_only h (NewPlayer (str "a7") (str "a7@x.io")) now2 st' =
         (Reply (BadRequest [DuplicateName; DuplicateEmail]), st'))
    (stores ascii_only
       (snd (handle ascii_only (NewPlayer (str "a7") (str "a7@x.io")) tester 8 registered))
       [add 1 1 9; mkCall (NewGame (str "Cup")) tester 10]).
Proof.
  assert (S : fst (handle ascii_only (NewPlayer (str "a7") (str "a7@x.io")) tester 8
                     registered) = Success 7) by (vm_compute; reflexivity).
  split; [exact S|].
  pose proof (second_creation_refused ascii_only registered _ _ tester 8 7
                [add 1 1 9; mkCall (NewGame (str "Cup")) tester 10] S) as H.
  apply Forall_inv_tail in H.
  eapply Forall_impl; [|exact H]. intros st' (_ & _ & X). exact X.
Defined.

Lemma players_stay_unique_from_empty :
  unique_players empty_store /\
  Forall unique_players (stores ascii_only empty_store (filling ++ same_name)).
Proof.
  assert (H : unique_players empty_store) by (split; constructor).
  split; [exact H|].
  apply players_stay_unique. exact H.
Defined.

Lemma keys_stay_fresh_from_empty :
  keys_ok empty_store /\
  Forall keys_ok (stores ascii_only empty_store (filling ++ same_name)).
Proof.
  assert (H : keys_ok empty_store).
  { repeat split; simpl; try constructor; contradiction. }
  split; [exact H|].
  apply keys_stay_fresh. exact H.
Defined.

Lemma memberships_stay_valid_from_empty :
  references_ok empty_store /\
  Forall references_ok (stores ascii_only empty_store (filling ++ same_name)).
Proof.
  assert (H : references_ok empty_store) by (intros game player_id []).
  split; [exact H|].
  apply memberships_stay_valid. exact H.
Defined.

Lemma overlap_keeps_rows_unique_at_same_name :
  unique_players empty_store /\
  unique_players
    (snd (interleave ascii_only [0; 1; 0; 1]%nat empty_store (map Received same_name))).
Proof.
  assert (U : unique_players empty_store) by (split; constructor).
  assert (K : keys_ok empty_store).
  { repeat split; simpl; try constructor; contradiction. }
  assert (M : forall g, NoDup (players_pks empty_store g)) by (intros g; constructor).
  split; [exact U|].
  exact (proj1 (overlap_keeps_rows_unique ascii_only [0; 1; 0; 1]%nat
                  (map Received same_name) empty_store U K M)).
Defined.

Lemma admin_lists_the_members_at_five :
  consistent five_members /\
  players_ five_members 1 = [str "a1"; str "a2"; str "a3"; str "a4"; str "a5"] /\
  NoDup (players_ five_members 1).
Proof.
  split; [exact five_members_consistent|].
  split; [vm_compute; reflexivity|].
  exact (proj1 (proj2 (proj2 (admin_lists_the_members five_members 1
                                 five_members_consistent)))).
Defined.

Lemma full_game_stays_as_it_is_at_five :
  players_count five_members 1 > 4 /\
  Forall (fun st' => players_pks st' 1 = players_pks five_members 1)
         (stores ascii_only five_members [add 1 6 13; add 1 5 14; add 1 6 15]).
Proof.
  assert (C : players_count five_members 1 > 4) by (vm_compute; reflexivity).
  split; [exact C|].
  apply full_game_stays_as_it_is. exact C.
Defined.

